(** * Three-player Othello: board rules and minimax search

    A shallow embedding of [board.py] and [minimax.py].  Python integers are
    [Z]; Python lists are Rocq lists read and written through [getitem] and
    [setitem], which reproduce Python's index rules (a negative index counts
    from the end, anything else out of range raises [IndexError]).  Code that
    can raise or loop returns an [outcome]. *)

From Stdlib Require Import ZArith Lia Bool String DecimalString.
From stdpp Require Import base list sorting gmap.

Local Open Scope Z_scope.

(** ** Outcomes of Python computations *)

Inductive exn : Set :=
| IndexError
| ZeroDivisionError
| TypeError
| ValueError
| ForbiddenMove.  (* declared by board.py, raised nowhere *)

(** [OutOfFuel] is the model's own: a loop or a recursion that was not given
    enough fuel to finish. *)
Inductive outcome (A : Type) : Type :=
| Ret (a : A)
| Raise (e : exn)
| OutOfFuel.

Arguments Ret {A} a.
Arguments Raise {A} e.
Arguments OutOfFuel {A}.

Definition bind {A B : Type} (m : outcome A) (k : A -> outcome B) : outcome B :=
  match m with
  | Ret a => k a
  | Raise e => Raise e
  | OutOfFuel => OutOfFuel
  end.

Notation "x <- m ;; k" := (bind m (fun x => k))
  (at level 100, m at next level, right associativity).

(** The computation finishes, with a value or an exception. *)
Definition terminates {A : Type} (m : outcome A) : Prop := m <> OutOfFuel.

(** The computation raises no exception. *)
Definition no_raise {A : Type} (m : outcome A) : Prop := forall e, m <> Raise e.

(** ** Python lists *)

Module PyList.

(** The position a Python index denotes in a list of [len] elements. *)
Definition index (len : nat) (i : Z) : option nat :=
  if (0 <=? i) && (i <? Z.of_nat len) then Some (Z.to_nat i)
  else if (- Z.of_nat len <=? i) && (i <? 0) then Some (Z.to_nat (Z.of_nat len + i))
  else None.

(** [l[i]] *)
Definition getitem {A : Type} (l : list A) (i : Z) : outcome A :=
  match index (length l) i with
  | Some n => match l !! n with Some x => Ret x | None => Raise IndexError end
  | None => Raise IndexError
  end.

(** [l[i] = x] *)
Definition setitem {A : Type} (l : list A) (i : Z) (x : A) : outcome (list A) :=
  match index (length l) i with
  | Some n => Ret (<[n := x]> l)
  | None => Raise IndexError
  end.

(** [range(n)] *)
Definition range (n : Z) : list Z := seqZ 0 n.

(** [itertools.product(xs, ys)] *)
Definition product {A B : Type} (xs : list A) (ys : list B) : list (A * B) :=
  flat_map (fun x => map (fun y => (x, y)) ys) xs.

(** [a % b] on integers: the result takes the sign of [b]. *)
Definition mod_ (a b : Z) : outcome Z :=
  if b =? 0 then Raise ZeroDivisionError else Ret (a mod b).

End PyList.

Import PyList.

(** ** board.py *)

Definition EMPTY : Z := -1.

Record Board : Type := mkBoard {
  board : list (list Z);
  rows : Z;
  columns : Z
}.

Definition with_board (b : Board) (g : list (list Z)) : Board :=
  {| board := g; rows := rows b; columns := columns b |}.

(** [Board()]: the constructor fills a 9 x 9 grid with [EMPTY]. *)
Definition Board_init : Board :=
  {| board := replicate 9 (replicate 9 EMPTY); rows := 9; columns := 9 |}.

(** [self.board[r][c]] *)
Definition get_cell (b : Board) (r c : Z) : outcome Z :=
  row <- getitem (board b) r ;;
  getitem row c.

(** [self.board[r][c] = v]: the row object is fetched and updated in place. *)
Definition set_cell (b : Board) (r c v : Z) : outcome Board :=
  row <- getitem (board b) r ;;
  row' <- setitem row c v ;;
  g <- setitem (board b) r row' ;;
  Ret (with_board b g).

(** Chained assignment [self.board[..][..] = ... = v], targets left to right. *)
Fixpoint set_cells (b : Board) (targets : list (Z * Z)) (v : Z) : outcome Board :=
  match targets with
  | [] => Ret b
  | (r, c) :: rest => b' <- set_cell b r c v ;; set_cells b' rest v
  end.

Definition setup_three_players (b : Board) : outcome Board :=
  b <- set_cells b [(3, 3); (3, 5); (4, 4)] 0 ;;
  b <- set_cells b [(3, 4); (5, 3); (5, 5)] 1 ;;
  set_cells b [(4, 3); (4, 5); (5, 4)] 2.

(** [row < 0 or row >= self.rows or column < 0 or column >= self.columns] *)
Definition out_of_bounds (b : Board) (row column : Z) : bool :=
  (row <? 0) || (row >=? rows b) || (column <? 0) || (column >=? columns b).

(** The [while] loop of [would_flip] for one direction; the result is what the
    ray adds to [flips]. *)
Fixpoint walk (fuel : nat) (b : Board) (player dy dx new_row new_col : Z)
    (visited_discs : list (Z * Z)) : outcome (list (Z * Z)) :=
  match fuel with
  | O => OutOfFuel
  | S fuel' =>
      if out_of_bounds b new_row new_col then Ret []
      else
        cell <- get_cell b new_row new_col ;;
        if cell =? player then Ret visited_discs
        else if cell =? EMPTY then Ret []
        else walk fuel' b player dy dx (new_row + dy) (new_col + dx)
               (visited_discs ++ [(new_row, new_col)])
  end.

(** Iterations granted to one ray: one more than the longer side of the grid. *)
Definition ray_fuel (b : Board) : nat := S (Z.to_nat (Z.max (rows b) (columns b))).

Fixpoint would_flip_loop (b : Board) (row column player : Z)
    (dirs : list (Z * Z)) (flips : list (Z * Z)) : outcome (list (Z * Z)) :=
  match dirs with
  | [] => Ret flips
  | (dy, dx) :: dirs' =>
      if (dy =? dx) && (dx =? 0) then would_flip_loop b row column player dirs' flips
      else
        ray <- walk (ray_fuel b) b player dy dx (row + dy) (column + dx) [] ;;
        would_flip_loop b row column player dirs' (flips ++ ray)
  end.

Definition would_flip (b : Board) (row column player : Z) : outcome (list (Z * Z)) :=
  would_flip_loop b row column player (product [-1; 0; 1] [-1; 0; 1]) [].

(** The inner [for x] loop of the adjacency test; [true] when it left by [break]. *)
Fixpoint adjacent_in_row (b : Board) (row column y : Z) (xs : list Z) : outcome bool :=
  match xs with
  | [] => Ret false
  | x :: xs' =>
      if out_of_bounds b y x then adjacent_in_row b row column y xs'
      else if (row =? y) && (column =? x) then adjacent_in_row b row column y xs'
      else
        cell <- get_cell b y x ;;
        if negb (cell =? EMPTY) then Ret true
        else adjacent_in_row b row column y xs'
  end.

(** The outer [for y] loop; the result is [is_adjacent]. *)
Fixpoint adjacent_rows (b : Board) (row column : Z) (ys : list Z) : outcome bool :=
  match ys with
  | [] => Ret false
  | y :: ys' =>
      is_adjacent <- adjacent_in_row b row column y [column - 1; column; column + 1] ;;
      if is_adjacent then Ret true
      else adjacent_rows b row column ys'
  end.

Definition validate_placing (b : Board) (row column player : Z) : outcome (bool * string) :=
  if out_of_bounds b row column then Ret (false, "Placement out of bounds."%string)
  else
    cell <- get_cell b row column ;;
    if negb (cell =? EMPTY) then Ret (false, "Square taken."%string)
    else
      is_adjacent <- adjacent_rows b row column [row - 1; row; row + 1] ;;
      if negb is_adjacent
      then Ret (false, "New disc must be adjacent to some existing one."%string)
      else
        flips <- would_flip b row column player ;;
        match flips with
        | [] => Ret (false, "Move won't flip any disks."%string)
        | _ => Ret (true, EmptyString)
        end.

(** [for x, y in to_flip: self.board[x][y] = player] *)
Fixpoint flip_all (b : Board) (to_flip : list (Z * Z)) (player : Z) : outcome Board :=
  match to_flip with
  | [] => Ret b
  | (x, y) :: rest => b' <- set_cell b x y player ;; flip_all b' rest player
  end.

(** [place] calls [validate_placing] and drops what it returns. *)
Definition place (b : Board) (row column player : Z) : outcome Board :=
  _ <- validate_placing b row column player ;;
  to_flip <- would_flip b row column player ;;
  b' <- flip_all b to_flip player ;;
  set_cell b' row column player.

(** [has_valid_move]: the inner [for column] loop; [true] when it returned
    from inside. *)
Fixpoint has_valid_move_columns (b : Board) (player row : Z) (cols : list Z) : outcome bool :=
  match cols with
  | [] => Ret false
  | column :: cols' =>
      r <- validate_placing b row column player ;;
      if fst r then Ret true
      else has_valid_move_columns b player row cols'
  end.

Fixpoint has_valid_move_rows (b : Board) (player : Z) (rs : list Z) : outcome bool :=
  match rs with
  | [] => Ret false
  | row :: rs' =>
      found <- has_valid_move_columns b player row (range (columns b)) ;;
      if found then Ret true
      else has_valid_move_rows b player rs'
  end.

Definition has_valid_move (b : Board) (player : Z) : outcome bool :=
  has_valid_move_rows b player (range (rows b)).

Fixpoint valid_moves_columns (b : Board) (player row : Z) (cols : list Z)
    (moves : list (Z * Z)) : outcome (list (Z * Z)) :=
  match cols with
  | [] => Ret moves
  | column :: cols' =>
      r <- validate_placing b row column player ;;
      valid_moves_columns b player row cols'
        (if fst r then moves ++ [(row, column)] else moves)
  end.

Fixpoint valid_moves_rows (b : Board) (player : Z) (rs : list Z)
    (moves : list (Z * Z)) : outcome (list (Z * Z)) :=
  match rs with
  | [] => Ret moves
  | row :: rs' =>
      moves' <- valid_moves_columns b player row (range (columns b)) moves ;;
      valid_moves_rows b player rs' moves'
  end.

Definition valid_moves (b : Board) (player : Z) : outcome (list (Z * Z)) :=
  valid_moves_rows b player (range (rows b)) [].

(** [scores[cell] += 1] for every cell of one row. *)
Fixpoint count_row (cells : list Z) (scores : list Z) : outcome (list Z) :=
  match cells with
  | [] => Ret scores
  | cell :: cells' =>
      old <- getitem scores cell ;;
      scores' <- setitem scores cell (old + 1) ;;
      count_row cells' scores'
  end.

Fixpoint count_rows (grid : list (list Z)) (scores : list Z) : outcome (list Z) :=
  match grid with
  | [] => Ret scores
  | row :: grid' =>
      scores' <- count_row row scores ;;
      count_rows grid' scores'
  end.

(** [max(scores)] on a list that starts with [s]. *)
Definition list_max (s : Z) (scores : list Z) : Z := fold_left Z.max scores s.

(** [scores.index(x)]: the first position holding [x]. *)
Fixpoint list_index (x : Z) (scores : list Z) : outcome Z :=
  match scores with
  | [] => Raise ValueError
  | s :: scores' =>
      if s =? x then Ret 0
      else i <- list_index x scores' ;; Ret (i + 1)
  end.

(** [get_winner]: [Some p] is player [p], [None] is Python's [None] (a draw). *)
Definition get_winner (b : Board) : outcome (option Z) :=
  scores <- count_rows (board b) [0; 0; 0] ;;
  match scores with
  | [] => Raise ValueError
  | s :: rest =>
      let max_score := list_max s rest in
      if (1 <? Z.of_nat (length (filter (fun x => x = max_score) scores)))
      then Ret None
      else i <- list_index max_score scores ;; Ret (Some i)
  end.

(** ** board.py: rendering *)

(** The six colour constants.  On Linux they come from [colorama]; elsewhere
    the module sets the plain strings of [plain_palette]. *)
Record palette : Type := mkPalette {
  BACK_EMPTY : string;
  BACK_GREEN : string;
  BACK_BLACK : string;
  BACK_WHITE : string;
  BACK_RED : string;
  RESET_COLOR : string
}.

Definition plain_palette : palette :=
  {| BACK_EMPTY := " "; BACK_GREEN := EmptyString; BACK_BLACK := "0";
     BACK_WHITE := "1"; BACK_RED := "2"; RESET_COLOR := EmptyString |}.

(** A dictionary lookup [d[key]]: the value, or [KeyError(key)]. *)
Inductive lookup_result (A : Type) : Type :=
| Found (a : A)
| KeyError (key : Z).

Arguments Found {A} a.
Arguments KeyError {A} key.

Definition lookup_bind {A B : Type} (m : lookup_result A)
    (k : A -> lookup_result B) : lookup_result B :=
  match m with
  | Found a => k a
  | KeyError key => KeyError key
  end.

(** The line feed written ["\n"] in the source. *)
Definition newline : string := String (Ascii.ascii_of_nat 10) EmptyString.

(** [str(n)] on an integer. *)
Definition str_int (n : Z) : string := NilZero.string_of_int (Z.to_int n).

(** [s or default] on strings: the empty string is falsy. *)
Definition str_or (s default : string) : string :=
  match s with
  | EmptyString => default
  | _ => s
  end.

(** [l[:-1]] *)
Definition all_but_last {A : Type} (l : list A) : list A := take (length l - 1) l.

Section Rendering.

Variable pal : palette.

Definition COLOR_MAPPING : gmap Z string :=
  list_to_map [(-1, BACK_EMPTY pal); (0, BACK_BLACK pal);
               (1, BACK_WHITE pal); (2, BACK_RED pal)].

Definition print_disc (cell : Z) : lookup_result string :=
  match COLOR_MAPPING !! cell with
  | Some color =>
      Found (str_or color EmptyString ++ "   " ++ BACK_GREEN pal)%string
  | None => KeyError cell
  end.

Definition top_bot_line (b : Board) : string :=
  ("  " ++ BACK_GREEN pal ++
   String.concat " "
     (["+"%string] ++ all_but_last (replicate (Z.to_nat (columns b)) "-  "%string)
      ++ [("- +" ++ RESET_COLOR pal ++ newline)%string]))%string.

(** [for cell in row: output += self.print_disc(cell) + "|"] *)
Fixpoint str_cells (cells : list Z) (output : string) : lookup_result string :=
  match cells with
  | [] => Found output
  | cell :: cells' =>
      lookup_bind (print_disc cell) (fun disc =>
      str_cells cells' (output ++ (disc ++ "|"))%string)
  end.

(** [for row_num, row in enumerate(self.board)], from [row_num] on. *)
Fixpoint str_rows (b : Board) (row_num : Z) (grid : list (list Z)) (output : string)
    : lookup_result string :=
  match grid with
  | [] => Found output
  | row :: grid' =>
      let output := (output ++ (str_int row_num ++ " " ++ BACK_GREEN pal ++ "|"))%string in
      lookup_bind (str_cells row output) (fun output =>
      let output := (output ++ (RESET_COLOR pal ++ newline))%string in
      let output :=
        if negb (row_num =? rows b - 1)
        then (output ++
              ("  " ++ BACK_GREEN pal ++
               String.concat " "
                 ([" "%string] ++ replicate (Z.to_nat (columns b)) "-  "%string)
               ++ RESET_COLOR pal ++ newline))%string
        else output in
      str_rows b (row_num + 1) grid' output)
  end.

(** [Board.__str__]: the text of the board, or the [KeyError] of [print_disc]. *)
Definition __str__ (b : Board) : lookup_result string :=
  let output := EmptyString in
  let output :=
    (output ++ ("    " ++ String.concat "   " (map str_int (range (columns b)))
                ++ newline))%string in
  let output := (output ++ top_bot_line b)%string in
  lookup_bind (str_rows b 0 (board b) output) (fun output =>
  Found (output ++ top_bot_line b)%string).

End Rendering.

(** Number of line feeds in a string. *)
Fixpoint count_newlines (s : string) : nat :=
  match s with
  | EmptyString => O
  | String c s' =>
      ((if Ascii.eqb c (Ascii.ascii_of_nat 10) then 1 else 0) + count_newlines s')%nat
  end.

(** ** minimax.py *)

(** The values [minimax] handles: Python's [None] or a number. *)
Inductive value : Set :=
| VNone
| VNum (z : Z).

Definition heuristic_t : Type := Board -> Z -> Z.

(** [f(max_eval, evaluation)] with [f] one of [max], [min]; comparing with
    [None] is a [TypeError]. *)
Definition aggregate (maximizing : bool) (max_eval evaluation : value) : outcome value :=
  match max_eval, evaluation with
  | VNum a, VNum e => Ret (VNum (if maximizing then Z.max a e else Z.min a e))
  | _, _ => Raise TypeError
  end.

Section Minimax.

Variable heuristic : heuristic_t.

(** The [for move_row, move_col in valid_moves] loop; [recurse] is the
    recursive call of [minimax] one ply deeper, the board is the shared
    object that [place] and the undo assignment mutate. *)
Fixpoint expand (recurse : Board -> outcome (value * Board))
    (maximizing_player current_player : Z)
    (moves : list (Z * Z)) (max_eval : value) (b : Board) : outcome (value * Board) :=
  match moves with
  | [] => Ret (max_eval, b)
  | (move_row, move_col) :: moves' =>
      b1 <- place b move_row move_col current_player ;;
      r <- recurse b1 ;;
      let evaluation := fst r in
      b3 <- set_cell (snd r) move_row move_col EMPTY ;;
      max_eval' <- match max_eval with
                   | VNone => Ret evaluation
                   | _ => aggregate (current_player =? maximizing_player)
                            max_eval evaluation
                   end ;;
      expand recurse maximizing_player current_player moves' max_eval' b3
  end.

(** [minimax] returns its value together with the board object as the call
    leaves it.  The pass branch recurses on [deepcopy(board)], so whatever
    the recursive call does to its copy is dropped. *)
Fixpoint minimax (fuel : nat) (b : Board)
    (depth maximizing_player current_player num_players turns_passed : Z)
    : outcome (value * Board) :=
  match fuel with
  | O => OutOfFuel
  | S fuel' =>
      if (depth =? 0) || (turns_passed =? num_players)
      then Ret (VNum (heuristic b current_player), b)
      else
        moves <- valid_moves b current_player ;;
        next_player <- mod_ (current_player + 1) num_players ;;
        match moves with
        | [] =>
            r <- minimax fuel' b (depth - 1) maximizing_player next_player
                   num_players (turns_passed + 1) ;;
            Ret (fst r, b)
        | _ =>
            expand (fun b' => minimax fuel' b' (depth - 1) maximizing_player
                                next_player num_players 0)
              maximizing_player current_player moves VNone b
        end
  end.

End Minimax.

(** ** Boards used in examples *)

(** The board after [Board()] and [setup_three_players()]. *)
Definition start_board : Board :=
  Eval vm_compute in
    match setup_three_players Board_init with
    | Ret b => b
    | _ => Board_init
    end.

(** The start position after player 0 has played (6, 4), capturing (5, 4). *)
Definition after_first_move : Board :=
  Eval vm_compute in
    match place start_board 6 4 0 with
    | Ret b => b
    | _ => start_board
    end.

(** A position in which player 0 has no disc left, hence no legal move, while
    player 1 can capture (4, 5) from (4, 6). *)
Definition pass_board : Board :=
  Eval vm_compute in
    match (b <- set_cell Board_init 4 4 1 ;; set_cell b 4 5 2) with
    | Ret b => b
    | _ => Board_init
    end.

(** Ten discs of player 0, ten of player 1, five of player 2, 56 empty cells. *)
Definition tie_board : Board :=
  {| board := [ [0; 0; 0; 0; 0; 0; 0; 0; 0];
                [0; 1; 1; 1; 1; 1; 1; 1; 1];
                [1; 1; 2; 2; 2; 2; 2; -1; -1];
                replicate 9 EMPTY; replicate 9 EMPTY; replicate 9 EMPTY;
                replicate 9 EMPTY; replicate 9 EMPTY; replicate 9 EMPTY ];
     rows := 9; columns := 9 |}.

(** Twelve discs of player 0, five of player 1, five of player 2, 59 empty cells. *)
Definition lead_board : Board :=
  {| board := [ [0; 0; 0; 0; 0; 0; 0; 0; 0];
                [0; 0; 0; 1; 1; 1; 1; 1; -1];
                [2; 2; 2; 2; 2; -1; -1; -1; -1];
                replicate 9 EMPTY; replicate 9 EMPTY; replicate 9 EMPTY;
                replicate 9 EMPTY; replicate 9 EMPTY; replicate 9 EMPTY ];
     rows := 9; columns := 9 |}.

(** Number of cells of the grid holding [v]. *)
Definition count_cells (b : Board) (v : Z) : Z :=
  Z.of_nat (length (filter (fun x => x = v) (concat (board b)))).

(** The score [get_winner] keeps for a player: its discs, and for the last
    player, 2, also the empty cells, which [scores[-1]] counts there. *)
Definition tally (b : Board) (p : Z) : Z :=
  count_cells b p + (if p =? 2 then count_cells b EMPTY else 0).

(** A disc-counting heuristic: the number of discs of the perspective player. *)
Definition disc_count : heuristic_t := count_cells.

(** ** Vocabulary of the specification *)

(** A board as the constructor builds it and the operations keep it: the grid
    has [rows] rows of [columns] cells. *)
Definition wf_board (b : Board) : Prop :=
  Z.of_nat (length (board b)) = rows b /\
  Forall (fun row => Z.of_nat (length row) = columns b) (board b).

Definition in_bounds (b : Board) (r c : Z) : Prop :=
  0 <= r < rows b /\ 0 <= c < columns b.

Module Spec.

(** The 8 compass directions as (row step, column step). *)
Definition compass : list (Z * Z) :=
  [(-1, -1); (-1, 0); (-1, 1); (0, -1); (0, 1); (1, -1); (1, 0); (1, 1)].

(** The cell [k] steps away from the target along a direction. *)
Definition along (row column dy dx k : Z) : Z * Z :=
  (row + k * dy, column + k * dx).

(** The cell is on the grid and holds [v]. *)
Definition holds (b : Board) (cell : Z * Z) (v : Z) : Prop :=
  in_bounds b cell.1 cell.2 /\ get_cell b cell.1 cell.2 = Ret v.

(** The cell is owned by a player other than [player]. *)
Definition opposing (b : Board) (player : Z) (cell : Z * Z) : Prop :=
  exists v, holds b cell v /\ v <> player /\ v <> EMPTY.

(** [cell] is captured along the ray: the walk passes only opposing cells
    until, [n] steps out, it reaches a cell owned by [player]; [cell] is one
    of the cells passed. *)
Definition ray_captures (b : Board) (row column player dy dx : Z)
    (cell : Z * Z) : Prop :=
  exists n k : Z,
    1 <= k < n /\
    cell = along row column dy dx k /\
    (forall j, 1 <= j < n -> opposing b player (along row column dy dx j)) /\
    holds b (along row column dy dx n) player.

(** The union of the capturing rays. *)
Definition captures (b : Board) (row column player : Z) (cell : Z * Z) : Prop :=
  exists dy dx, (dy, dx) ∈ compass /\ ray_captures b row column player dy dx cell.

(** Some neighbouring cell, in one of the 8 directions, is on the grid and
    not empty. *)
Definition adjacent_to_disc (b : Board) (row column : Z) : Prop :=
  exists dy dx v,
    (dy, dx) ∈ compass /\ holds b (row + dy, column + dx) v /\ v <> EMPTY.

(** All cells of the grid in row-major order. *)
Definition cells (b : Board) : list (Z * Z) :=
  product (range (rows b)) (range (columns b)).

(** Row-major order on cells. *)
Definition row_major_lt (p q : Z * Z) : Prop :=
  p.1 < q.1 \/ (p.1 = q.1 /\ p.2 < q.2).

End Spec.

(** The verdict of [validate_placing] as a boolean; [false] also when the
    check itself fails. *)
Definition is_legal (b : Board) (player : Z) (cell : Z * Z) : bool :=
  match validate_placing b cell.1 cell.2 player with
  | Ret (ok, _) => ok
  | _ => false
  end.

(** Iterations a ray can still make from an on-grid cell before it leaves the
    grid. *)
Definition steps_left (b : Board) (dy dx r c : Z) : Z :=
  if 0 <? dy then rows b - r
  else if dy <? 0 then r + 1
  else if 0 <? dx then columns b - c
  else c + 1.


(** * Proofs *)

(** ** Outcomes *)

Section Outcome.

Context {A B : Type}.
Implicit Types (m : outcome A) (k : A -> outcome B).

Lemma bind_Ret_inv m k y :
  bind m k = Ret y -> exists x, m = Ret x /\ k x = Ret y.
Proof. destruct m as [x| |]; simpl; intros H; try discriminate. eauto. Qed.

Lemma bind_terminates m k :
  terminates m -> (forall x, m = Ret x -> terminates (k x)) -> terminates (bind m k).
Proof.
  unfold terminates. destruct m as [x| |]; simpl; intros Hm Hk.
  - now apply Hk.
  - discriminate.
  - now contradiction Hm.
Qed.

Lemma Ret_terminates (x : A) : terminates (Ret x).
Proof. discriminate. Qed.

Lemma Raise_terminates e : terminates (@Raise A e).
Proof. discriminate. Qed.

End Outcome.

Create HintDb term.
#[local] Hint Resolve Ret_terminates Raise_terminates : term.

Lemma bind_terminates_inv {A B : Type} (m : outcome A) (k : A -> outcome B) :
  terminates (bind m k) -> terminates m.
Proof.
  destruct m; simpl; intros H;
    [apply Ret_terminates | apply Raise_terminates | now contradiction H].
Qed.

(** ** Python indexing *)

Section Indexing.

Context {A : Type}.
Implicit Types (l : list A) (i j : Z) (n : nat).

Lemma index_lt len i n : index len i = Some n -> (n < len)%nat.
Proof.
  unfold index. intros H.
  destruct ((0 <=? i) && (i <? Z.of_nat len)) eqn:E1.
  - inversion H; subst. lia.
  - destruct ((- Z.of_nat len <=? i) && (i <? 0)) eqn:E2; inversion H; subst. lia.
Qed.

Lemma index_nonneg len i : 0 <= i < Z.of_nat len -> index len i = Some (Z.to_nat i).
Proof.
  intros H. unfold index.
  destruct ((0 <=? i) && (i <? Z.of_nat len)) eqn:E1; [reflexivity | lia].
Qed.

Lemma index_negative len i :
  - Z.of_nat len <= i < 0 -> index len i = Some (Z.to_nat (Z.of_nat len + i)).
Proof.
  intros H. unfold index.
  destruct ((0 <=? i) && (i <? Z.of_nat len)) eqn:E1; [lia |].
  destruct ((- Z.of_nat len <=? i) && (i <? 0)) eqn:E2; [reflexivity | lia].
Qed.

Lemma index_valid len i :
  - Z.of_nat len <= i < Z.of_nat len -> exists n, index len i = Some n.
Proof.
  intros H. destruct (Z_lt_le_dec i 0).
  - rewrite index_negative by lia. eauto.
  - rewrite index_nonneg by lia. eauto.
Qed.

Lemma getitem_index l i n :
  index (length l) i = Some n -> exists x, l !! n = Some x /\ getitem l i = Ret x.
Proof.
  intros H. unfold getitem. rewrite H.
  destruct (lookup_lt_is_Some_2 l n (index_lt _ _ _ H)) as [x Hx].
  rewrite Hx. eauto.
Qed.

Lemma getitem_terminates l i : terminates (getitem l i).
Proof.
  unfold getitem. destruct (index (length l) i) as [n|]; [|discriminate].
  destruct (l !! n); discriminate.
Qed.

Lemma setitem_terminates l i x : terminates (setitem l i x).
Proof. unfold setitem. destruct (index (length l) i); discriminate. Qed.

End Indexing.

#[local] Hint Resolve getitem_terminates setitem_terminates : term.

(** ** Cells of a board *)

Lemma out_of_bounds_false b r c : out_of_bounds b r c = false <-> in_bounds b r c.
Proof. unfold out_of_bounds, in_bounds. lia. Qed.

Lemma out_of_bounds_true b r c : out_of_bounds b r c = true <-> ~ in_bounds b r c.
Proof. unfold out_of_bounds, in_bounds. lia. Qed.

Lemma get_cell_terminates b r c : terminates (get_cell b r c).
Proof. unfold get_cell. apply bind_terminates; auto with term. Qed.

Lemma set_cell_terminates b r c v : terminates (set_cell b r c v).
Proof.
  unfold set_cell.
  repeat (apply bind_terminates; [auto with term | intros ? _]).
  auto with term.
Qed.

#[local] Hint Resolve get_cell_terminates set_cell_terminates : term.

Lemma wf_row b n row :
  wf_board b -> board b !! n = Some row -> Z.of_nat (length row) = columns b.
Proof. intros [_ Hall] H. eapply (proj1 (Forall_lookup _ _) Hall); eauto. Qed.

(** Reading an index-valid cell of a well-formed board succeeds. *)
Lemma get_cell_valid b r c :
  wf_board b -> - rows b <= r < rows b -> - columns b <= c < columns b ->
  exists v, get_cell b r c = Ret v.
Proof.
  intros Hwf Hr Hc. unfold get_cell.
  destruct (index_valid (length (board b)) r) as [n Hn]; [destruct Hwf; lia|].
  destruct (getitem_index _ _ _ Hn) as (row & Hrow & ->). simpl.
  pose proof (wf_row _ _ _ Hwf Hrow) as Hlen.
  destruct (index_valid (length row) c) as [k Hk]; [lia|].
  destruct (getitem_index _ _ _ Hk) as (v & _ & ->). eauto.
Qed.

Lemma get_cell_in_bounds b r c :
  wf_board b -> in_bounds b r c -> exists v, get_cell b r c = Ret v.
Proof. intros Hwf [Hr Hc]. apply get_cell_valid; auto; lia. Qed.

(** Writing an index-valid cell of a well-formed board succeeds, keeps the
    board well-formed, and the written position then reads back the value:
    at the index used and at any index denoting the same position. *)
Lemma set_cell_valid b r c v :
  wf_board b -> - rows b <= r < rows b -> - columns b <= c < columns b ->
  exists b', set_cell b r c v = Ret b' /\ wf_board b' /\
    rows b' = rows b /\ columns b' = columns b /\
    forall r' c',
      index (Z.to_nat (rows b)) r' = index (Z.to_nat (rows b)) r ->
      index (Z.to_nat (columns b)) c' = index (Z.to_nat (columns b)) c ->
      get_cell b' r' c' = Ret v.
Proof.
  intros Hwf Hr Hc. unfold set_cell.
  pose proof Hwf as [Hrows Hall].
  destruct (index_valid (length (board b)) r) as [n Hn]; [lia|].
  destruct (getitem_index _ _ _ Hn) as (row & Hrow & ->). simpl.
  pose proof (wf_row _ _ _ Hwf Hrow) as Hlen.
  destruct (index_valid (length row) c) as [k Hk]; [lia|].
  unfold setitem at 1. rewrite Hk. simpl.
  unfold setitem. rewrite Hn. simpl.
  eexists; split; [reflexivity|].
  assert (Hwf' : wf_board (with_board b (<[n := <[k := v]> row]> (board b)))).
  { split; simpl.
    - now rewrite length_insert.
    - apply Forall_insert; [assumption|]. now rewrite length_insert. }
  split; [assumption|]. split; [reflexivity|]. split; [reflexivity|].
  intros r' c' Hr' Hc'. unfold get_cell. simpl.
  assert (Z.to_nat (rows b) = length (board b)) as E1 by lia.
  assert (Z.to_nat (columns b) = length row) as E2 by lia.
  rewrite E1 in Hr'. rewrite E2 in Hc'.
  unfold getitem at 1. rewrite length_insert, Hr', Hn.
  rewrite list_lookup_insert_eq by (eapply index_lt; eauto). simpl.
  unfold getitem. rewrite length_insert, Hc', Hk.
  rewrite list_lookup_insert_eq by (eapply index_lt; eauto). reflexivity.
Qed.

(** ** Every loop of the board finishes *)

Lemma steps_left_pos b dy dx r c : in_bounds b r c -> 0 < steps_left b dy dx r c.
Proof. unfold in_bounds, steps_left. intros H. repeat case_match; lia. Qed.

Lemma steps_left_max b dy dx r c :
  in_bounds b r c -> steps_left b dy dx r c <= Z.max (rows b) (columns b).
Proof. unfold in_bounds, steps_left. intros H. repeat case_match; lia. Qed.

Lemma steps_left_step b dy dx r c :
  (dy =? dx) && (dx =? 0) = false ->
  steps_left b dy dx (r + dy) (c + dx) < steps_left b dy dx r c.
Proof. unfold steps_left. intros H. repeat case_match; lia. Qed.

(** A ray in a direction other than (0, 0) finishes as soon as the fuel
    exceeds the number of cells between its position and the border. *)
Lemma walk_terminates b player dy dx :
  (dy =? dx) && (dx =? 0) = false ->
  forall fuel r c visited,
    (0 < fuel)%nat ->
    (in_bounds b r c -> steps_left b dy dx r c < Z.of_nat fuel) ->
    terminates (walk fuel b player dy dx r c visited).
Proof.
  intros Hdir. induction fuel as [|fuel IH]; intros r c visited Hpos Hfuel; [lia|].
  simpl. destruct (out_of_bounds b r c) eqn:Hb; [auto with term|].
  apply out_of_bounds_false in Hb.
  apply bind_terminates; [auto with term|]. intros cell _.
  destruct (cell =? player); [auto with term|].
  destruct (cell =? EMPTY); [auto with term|].
  pose proof (steps_left_pos b dy dx r c Hb).
  pose proof (steps_left_step b dy dx r c Hdir).
  specialize (Hfuel Hb).
  apply IH; [lia|]. intros _. lia.
Qed.

(** More fuel does not change what a finished ray returned. *)
Lemma walk_fuel_mono b player dy dx fuel :
  forall fuel' r c visited,
    (fuel <= fuel')%nat ->
    terminates (walk fuel b player dy dx r c visited) ->
    walk fuel' b player dy dx r c visited = walk fuel b player dy dx r c visited.
Proof.
  induction fuel as [|fuel IH]; intros fuel' r c visited Hle Hterm;
    [now contradiction Hterm|].
  destruct fuel' as [|fuel']; [lia|]. simpl in *.
  destruct (out_of_bounds b r c); [reflexivity|].
  destruct (get_cell b r c) as [cell| |]; simpl in *; try reflexivity.
  destruct (cell =? player); [reflexivity|].
  destruct (cell =? EMPTY); [reflexivity|].
  apply IH; [lia | assumption].
Qed.

Lemma would_flip_loop_terminates b row column player dirs :
  forall flips, terminates (would_flip_loop b row column player dirs flips).
Proof.
  induction dirs as [|[dy dx] dirs IH]; intros flips; cbn [would_flip_loop];
    [auto with term|].
  destruct ((dy =? dx) && (dx =? 0)) eqn:Hdir; [apply IH|].
  apply bind_terminates; [|intros; apply IH].
  apply walk_terminates; [assumption | unfold ray_fuel; lia |].
  intros Hb. pose proof (steps_left_max b dy dx _ _ Hb). unfold ray_fuel. lia.
Qed.

Lemma would_flip_terminates b row column player :
  terminates (would_flip b row column player).
Proof. apply would_flip_loop_terminates. Qed.

Lemma adjacent_in_row_terminates b row column y xs :
  terminates (adjacent_in_row b row column y xs).
Proof.
  induction xs as [|x xs IH]; simpl; [auto with term|].
  destruct (out_of_bounds b y x); [assumption|].
  destruct ((row =? y) && (column =? x)); [assumption|].
  apply bind_terminates; [auto with term|]. intros cell _.
  destruct (negb (cell =? EMPTY)); auto with term.
Qed.

Lemma adjacent_rows_terminates b row column ys :
  terminates (adjacent_rows b row column ys).
Proof.
  induction ys as [|y ys IH]; cbn [adjacent_rows]; [auto with term|].
  apply bind_terminates; [apply adjacent_in_row_terminates|].
  intros [] _; auto with term.
Qed.

Lemma validate_placing_terminates b row column player :
  terminates (validate_placing b row column player).
Proof.
  unfold validate_placing.
  destruct (out_of_bounds b row column); [auto with term|].
  apply bind_terminates; [auto with term|]. intros cell _.
  destruct (negb (cell =? EMPTY)); [auto with term|].
  apply bind_terminates; [apply adjacent_rows_terminates|]. intros adj _.
  destruct (negb adj); [auto with term|].
  apply bind_terminates; [apply would_flip_terminates|].
  intros [|? ?] _; auto with term.
Qed.

Lemma flip_all_terminates to_flip player :
  forall b, terminates (flip_all b to_flip player).
Proof.
  induction to_flip as [|[x y] rest IH]; intros b; simpl; [auto with term|].
  apply bind_terminates; [auto with term|]. intros b' _. apply IH.
Qed.

Lemma place_terminates b row column player :
  terminates (place b row column player).
Proof.
  unfold place.
  apply bind_terminates; [apply validate_placing_terminates|]. intros _ _.
  apply bind_terminates; [apply would_flip_terminates|]. intros to_flip _.
  apply bind_terminates; [apply flip_all_terminates|]. intros b' _.
  auto with term.
Qed.

Lemma valid_moves_columns_terminates b player row cols :
  forall moves, terminates (valid_moves_columns b player row cols moves).
Proof.
  induction cols as [|c cols IH]; intros moves; simpl; [auto with term|].
  apply bind_terminates; [apply validate_placing_terminates|]. intros r _. apply IH.
Qed.

Lemma valid_moves_rows_terminates b player rs :
  forall moves, terminates (valid_moves_rows b player rs moves).
Proof.
  induction rs as [|r rs IH]; intros moves; simpl; [auto with term|].
  apply bind_terminates; [apply valid_moves_columns_terminates|]. intros m _. apply IH.
Qed.

Lemma valid_moves_terminates b player : terminates (valid_moves b player).
Proof. apply valid_moves_rows_terminates. Qed.

Lemma mod_terminates a n : terminates (mod_ a n).
Proof. unfold mod_. destruct (n =? 0); auto with term. Qed.

Lemma aggregate_terminates f x y : terminates (aggregate f x y).
Proof. destruct x, y; simpl; auto with term. Qed.

#[local] Hint Resolve place_terminates valid_moves_terminates mod_terminates
  aggregate_terminates : term.

(** ** The search finishes *)

Lemma expand_terminates recurse maximizing_player current_player moves :
  (forall b, terminates (recurse b)) ->
  forall max_eval b,
    terminates (expand recurse maximizing_player current_player moves max_eval b).
Proof.
  intros Hrec. induction moves as [|[move_row move_col] moves IH];
    intros max_eval b; simpl; [auto with term|].
  apply bind_terminates; [auto with term|]. intros b1 _.
  apply bind_terminates; [apply Hrec|]. intros r _.
  apply bind_terminates; [auto with term|]. intros b3 _.
  apply bind_terminates; [|intros; apply IH].
  destruct max_eval; auto with term.
Qed.

Lemma minimax_enough_fuel (heuristic : heuristic_t) (fuel : nat) (b : Board)
    (depth maximizing_player current_player num_players turns_passed : Z) :
  0 <= depth ->
  (Z.to_nat depth < fuel)%nat ->
  terminates (minimax heuristic fuel b depth maximizing_player current_player
                num_players turns_passed).
Proof.
  revert b depth current_player turns_passed.
  induction fuel as [|fuel IH]; intros b depth current_player turns_passed Hd Hf; [lia|].
  simpl.
  destruct ((depth =? 0) || (turns_passed =? num_players)) eqn:Hbase; [auto with term|].
  assert (0 < depth) by lia.
  apply bind_terminates; [auto with term|]. intros moves _.
  apply bind_terminates; [auto with term|]. intros next_player _.
  destruct moves as [|m moves].
  - apply bind_terminates; [apply IH; lia|]. auto with term.
  - apply expand_terminates. intros b'. apply IH; lia.
Qed.

Lemma expand_fuel_mono recurse recurse' maximizing_player current_player moves :
  (forall b, terminates (recurse b) -> recurse' b = recurse b) ->
  forall max_eval b,
    terminates (expand recurse maximizing_player current_player moves max_eval b) ->
    expand recurse' maximizing_player current_player moves max_eval b =
    expand recurse maximizing_player current_player moves max_eval b.
Proof.
  intros Hrec. induction moves as [|[move_row move_col] moves IH];
    intros max_eval b Hterm; cbn [expand] in *; [reflexivity|].
  destruct (place b move_row move_col current_player) as [b1| |];
    cbn [bind] in *; try reflexivity.
  rewrite (Hrec b1) by (now apply bind_terminates_inv in Hterm).
  destruct (recurse b1) as [r| |]; cbn [bind] in *; try reflexivity.
  destruct (set_cell (snd r) move_row move_col EMPTY) as [b3| |];
    cbn [bind] in *; try reflexivity.
  match goal with
  | |- bind ?m _ = _ => destruct m as [max_eval'| |]
  end; cbn [bind] in *; try reflexivity.
  now apply IH.
Qed.

(** More fuel does not change what a finished search returned. *)
Lemma minimax_fuel_mono heuristic fuel :
  forall fuel' b depth maximizing_player current_player num_players turns_passed,
    (fuel <= fuel')%nat ->
    terminates (minimax heuristic fuel b depth maximizing_player current_player
                  num_players turns_passed) ->
    minimax heuristic fuel' b depth maximizing_player current_player num_players
      turns_passed =
    minimax heuristic fuel b depth maximizing_player current_player num_players
      turns_passed.
Proof.
  induction fuel as [|fuel IH];
    intros fuel' b depth maximizing_player current_player num_players turns_passed
      Hle Hterm; [now contradiction Hterm|].
  destruct fuel' as [|fuel']; [lia|]. cbn [minimax] in *.
  destruct ((depth =? 0) || (turns_passed =? num_players)); [reflexivity|].
  destruct (valid_moves b current_player) as [moves| |]; cbn [bind] in *;
    try reflexivity.
  destruct (mod_ (current_player + 1) num_players) as [next_player| |];
    cbn [bind] in *; try reflexivity.
  destruct moves as [|m moves].
  - rewrite IH; [reflexivity | lia | now apply bind_terminates_inv in Hterm].
  - apply expand_fuel_mono; [|assumption].
    intros b' Hb'. apply IH; [lia | assumption].
Qed.

(** C9: for every board, non-negative depth, maximizing player, current
    player, player count, pass counter and heuristic, [minimax] terminates:
    each recursive call, in the pass branch and in the expansion branch, is
    made at depth minus one, so every amount of fuel above the depth is
    enough, and the outcome (a value or an exception) is the same for all of
    them. *)
Theorem minimax_terminates (heuristic : heuristic_t) (b : Board)
    (depth maximizing_player current_player num_players turns_passed : Z) :
  0 <= depth ->
  exists result,
    terminates result /\
    forall fuel,
      (Z.to_nat depth < fuel)%nat ->
      minimax heuristic fuel b depth maximizing_player current_player num_players
        turns_passed = result.
Proof.
  intros Hdepth.
  exists (minimax heuristic (S (Z.to_nat depth)) b depth maximizing_player
            current_player num_players turns_passed).
  assert (Hterm : terminates
                    (minimax heuristic (S (Z.to_nat depth)) b depth maximizing_player
                       current_player num_players turns_passed))
    by (apply minimax_enough_fuel; [assumption | lia]).
  split; [exact Hterm|].
  intros fuel Hfuel. apply minimax_fuel_mono; [lia | exact Hterm].
Qed.

Lemma minimax_terminates_witness :
  0 <= 2 /\
  exists result,
    terminates result /\
    forall fuel,
      (Z.to_nat 2 < fuel)%nat ->
      minimax disc_count fuel start_board 2 0 0 3 0 = result.
Proof.
  assert (Hdepth : 0 <= 2) by lia.
  split; [exact Hdepth|].
  exact (minimax_terminates disc_count start_board 2 0 0 3 0 Hdepth).
Defined.

(** ** Well-formed boards raise nothing *)

Lemma bind_no_raise {A B : Type} (m : outcome A) (k : A -> outcome B) :
  no_raise m -> (forall x, m = Ret x -> no_raise (k x)) -> no_raise (bind m k).
Proof.
  unfold no_raise. destruct m as [x|e'|]; simpl; intros Hm Hk e.
  - now apply Hk.
  - now contradiction (Hm e').
  - discriminate.
Qed.

Lemma Ret_no_raise {A : Type} (x : A) : no_raise (Ret x).
Proof. intros e. discriminate. Qed.

Lemma returns {A : Type} (m : outcome A) :
  terminates m -> no_raise m -> exists x, m = Ret x.
Proof.
  destruct m as [x|e|]; intros Ht Hn.
  - eauto.
  - now contradiction (Hn e).
  - now contradiction Ht.
Qed.

Create HintDb noraise.
#[local] Hint Resolve Ret_no_raise : noraise.

Lemma get_cell_no_raise b r c : wf_board b -> in_bounds b r c -> no_raise (get_cell b r c).
Proof.
  intros Hwf Hb. destruct (get_cell_in_bounds b r c Hwf Hb) as [v ->].
  auto with noraise.
Qed.

Lemma walk_no_raise b player dy dx :
  wf_board b ->
  forall fuel r c visited, no_raise (walk fuel b player dy dx r c visited).
Proof.
  intros Hwf. induction fuel as [|fuel IH]; intros r c visited; simpl.
  - intros e. discriminate.
  - destruct (out_of_bounds b r c) eqn:Hb; [auto with noraise|].
    apply out_of_bounds_false in Hb.
    apply bind_no_raise; [now apply get_cell_no_raise|]. intros cell _.
    destruct (cell =? player); [auto with noraise|].
    destruct (cell =? EMPTY); [auto with noraise|]. apply IH.
Qed.

Lemma would_flip_loop_no_raise b row column player dirs :
  wf_board b ->
  forall flips, no_raise (would_flip_loop b row column player dirs flips).
Proof.
  intros Hwf. induction dirs as [|[dy dx] dirs IH]; intros flips;
    cbn [would_flip_loop]; [auto with noraise|].
  destruct ((dy =? dx) && (dx =? 0)); [apply IH|].
  apply bind_no_raise; [now apply walk_no_raise | intros; apply IH].
Qed.

Lemma would_flip_returns b row column player :
  wf_board b -> exists flips, would_flip b row column player = Ret flips.
Proof.
  intros Hwf. apply returns; [apply would_flip_terminates|].
  now apply would_flip_loop_no_raise.
Qed.

(** ** The capture algorithm *)

Section Rays.

Variables (b : Board) (row column player dy dx : Z).

#[local] Abbreviation cell_at := (Spec.along row column dy dx).

Lemma holds_functional cell v w : Spec.holds b cell v -> Spec.holds b cell w -> v = w.
Proof. intros [_ Hv] [_ Hw]. congruence. Qed.

(** Behind a run of opposing cells, the first cell owned by the player is
    no nearer than the end of the run. *)
Lemma own_after_run m n :
  (forall j, 1 <= j < m -> Spec.opposing b player (cell_at j)) ->
  Spec.holds b (cell_at n) player -> 1 <= n -> m <= n.
Proof.
  intros Hrun Hown Hn. destruct (Z_lt_le_dec n m) as [Hlt|]; [|assumption].
  destruct (Hrun n (conj Hn Hlt)) as (v & Hv & Hne & _).
  now contradiction Hne; apply (holds_functional _ _ _ Hv Hown).
Qed.

(** The loop invariant of one ray: about to look at the cell [m] steps out,
    the cells passed so far are opposing and are exactly [visited]. *)
Lemma walk_captures fuel :
  forall m visited ray,
    1 <= m ->
    walk fuel b player dy dx (row + m * dy) (column + m * dx) visited = Ret ray ->
    (forall j, 1 <= j < m -> Spec.opposing b player (cell_at j)) ->
    (forall cell, cell ∈ visited <-> exists k, 1 <= k < m /\ cell = cell_at k) ->
    forall cell, cell ∈ ray <-> Spec.ray_captures b row column player dy dx cell.
Proof.
  induction fuel as [|fuel IH]; intros m visited ray Hm Hwalk Hrun Hvis cell;
    [discriminate|].
  simpl in Hwalk.
  destruct (out_of_bounds b (row + m * dy) (column + m * dx)) eqn:Hb.
  { (* the walk left the grid *)
    injection Hwalk as <-. apply out_of_bounds_true in Hb.
    split; [intros []%elem_of_nil|].
    intros (n & k & Hk & _ & Hopp & Hown).
    pose proof (own_after_run m n Hrun Hown ltac:(lia)) as Hge.
    destruct (Z.eq_dec n m) as [->|Hne].
    - destruct Hown as [Hin _]. now contradiction Hb.
    - destruct (Hopp m ltac:(lia)) as (v & [Hin _] & _). now contradiction Hb. }
  apply out_of_bounds_false in Hb.
  apply bind_Ret_inv in Hwalk as (v & Hget & Hwalk).
  assert (Hhere : Spec.holds b (cell_at m) v) by (split; assumption).
  destruct (v =? player) eqn:Hplayer.
  { (* a cell of the player closes the run *)
    injection Hwalk as <-. apply Z.eqb_eq in Hplayer as ->.
    rewrite Hvis. split.
    - intros (k & Hk & ->). exists m, k. auto.
    - intros (n & k & Hk & -> & Hopp & Hown).
      pose proof (own_after_run m n Hrun Hown ltac:(lia)) as Hge.
      destruct (Z.eq_dec n m) as [->|Hne]; [eauto|].
      destruct (Hopp m ltac:(lia)) as (v & Hv & Hne' & _).
      now contradiction Hne'; apply (holds_functional _ _ _ Hv Hhere). }
  apply Z.eqb_neq in Hplayer.
  destruct (v =? EMPTY) eqn:Hempty.
  { (* an empty cell ends the ray *)
    injection Hwalk as <-. apply Z.eqb_eq in Hempty as ->.
    split; [intros []%elem_of_nil|].
    intros (n & k & Hk & _ & Hopp & Hown).
    pose proof (own_after_run m n Hrun Hown ltac:(lia)) as Hge.
    destruct (Z.eq_dec n m) as [->|Hne].
    - now contradiction Hplayer; apply (holds_functional _ _ _ Hhere Hown).
    - destruct (Hopp m ltac:(lia)) as (v & Hv & _ & Hne').
      now contradiction Hne'; apply (holds_functional _ _ _ Hv Hhere). }
  apply Z.eqb_neq in Hempty.
  (* an opposing cell: one step further *)
  replace (row + m * dy + dy) with (row + (m + 1) * dy) in Hwalk by lia.
  replace (column + m * dx + dx) with (column + (m + 1) * dx) in Hwalk by lia.
  apply (IH (m + 1) _ ray ltac:(lia) Hwalk).
  - intros j Hj. destruct (Z.eq_dec j m) as [->|]; [|apply Hrun; lia].
    exists v. auto.
  - intros c. rewrite elem_of_app, list_elem_of_singleton, Hvis. split.
    + intros [(k & Hk & ->)| ->]; [exists k | exists m]; split; auto; lia.
    + intros (k & Hk & ->). destruct (Z.eq_dec k m) as [->|]; [now right|].
      left. exists k. split; auto; lia.
Qed.

(** What one ray contributes, from the first cell next to the target. *)
Lemma ray_captures_start fuel ray :
  walk fuel b player dy dx (row + dy) (column + dx) [] = Ret ray ->
  forall cell, cell ∈ ray <-> Spec.ray_captures b row column player dy dx cell.
Proof.
  intros Hwalk. apply (walk_captures fuel 1 [] ray); try lia.
  - now rewrite !Z.mul_1_l.
  - intros c. split; [intros []%elem_of_nil | intros (k & Hk & _); lia].
Qed.

End Rays.

Lemma would_flip_loop_captures b row column player dirs :
  forall flips result,
    would_flip_loop b row column player dirs flips = Ret result ->
    forall cell,
      cell ∈ result <->
      cell ∈ flips \/
      exists dy dx, (dy, dx) ∈ dirs /\ (dy =? dx) && (dx =? 0) = false /\
                    Spec.ray_captures b row column player dy dx cell.
Proof.
  induction dirs as [|[dy dx] dirs IH]; intros flips result Hloop cell;
    cbn [would_flip_loop] in Hloop.
  - injection Hloop as <-. split; [auto|].
    intros [H|(dy & dx & []%elem_of_nil & _)]; assumption.
  - destruct ((dy =? dx) && (dx =? 0)) eqn:Hdir.
    + rewrite (IH _ _ Hloop). split.
      * intros [H|(dy' & dx' & Hin & H)]; [auto|].
        right. exists dy', dx'. rewrite elem_of_cons. auto.
      * intros [H|(dy' & dx' & Hin & Hdir' & H)]; [auto|].
        apply elem_of_cons in Hin as [[= -> ->]|Hin]; [congruence|].
        right. eauto.
    + apply bind_Ret_inv in Hloop as (ray & Hray & Hloop).
      rewrite (IH _ _ Hloop), elem_of_app.
      rewrite (ray_captures_start _ _ _ _ _ _ _ _ Hray). split.
      * intros [[H|H]|(dy' & dx' & Hin & H)]; [auto| |].
        -- right. exists dy, dx. rewrite elem_of_cons. auto.
        -- right. exists dy', dx'. rewrite elem_of_cons. auto.
      * intros [H|(dy' & dx' & Hin & Hdir' & H)]; [auto|].
        apply elem_of_cons in Hin as [[= -> ->]|Hin]; [auto|].
        right. eauto.
Qed.

Lemma compass_directions dy dx :
  (dy, dx) ∈ Spec.compass <->
  (dy, dx) ∈ product [-1; 0; 1] [-1; 0; 1] /\ (dy =? dx) && (dx =? 0) = false.
Proof.
  unfold Spec.compass. cbn [product flat_map map app].
  rewrite !elem_of_cons, !elem_of_nil. split.
  - intros H. repeat (destruct H as [[= -> ->]|H]; [split; [tauto | reflexivity]|]).
    contradiction.
  - intros [H Hdir].
    repeat (destruct H as [[= -> ->]|H]; [try discriminate; tauto|]).
    contradiction.
Qed.

Lemma would_flip_captures b row column player flips :
  would_flip b row column player = Ret flips ->
  forall cell, cell ∈ flips <-> Spec.captures b row column player cell.
Proof.
  intros Hflip cell. unfold would_flip in Hflip.
  rewrite (would_flip_loop_captures _ _ _ _ _ _ _ Hflip). unfold Spec.captures.
  split.
  - intros [[]%elem_of_nil|(dy & dx & Hin & Hdir & H)].
    exists dy, dx. rewrite compass_directions. auto.
  - intros (dy & dx & (Hin & Hdir)%compass_directions & H). right. eauto.
Qed.

(** C5: for every board and every (row, column, player), [would_flip] returns
    the union over the 8 compass directions of the capturing rays: along a
    ray the cells owned by other players are accumulated; reaching a cell of
    [player] includes all of them; reaching an empty cell or the border
    contributes nothing. *)
Theorem would_flip_is_union_of_rays (b : Board) (row column player : Z) :
  wf_board b ->
  exists flips,
    would_flip b row column player = Ret flips /\
    forall cell, cell ∈ flips <-> Spec.captures b row column player cell.
Proof.
  intros Hwf. destruct (would_flip_returns b row column player Hwf) as [flips Hflips].
  exists flips. split; [assumption|]. now apply would_flip_captures.
Qed.

Lemma wf_Board_init : wf_board Board_init.
Proof. split; [reflexivity | repeat constructor]. Qed.

Lemma wf_start_board : wf_board start_board.
Proof. split; [reflexivity | repeat constructor]. Qed.

Lemma would_flip_is_union_of_rays_witness :
  wf_board start_board /\
  exists flips,
    would_flip start_board 6 4 0 = Ret flips /\
    forall cell, cell ∈ flips <-> Spec.captures start_board 6 4 0 cell.
Proof.
  assert (Hwf : wf_board start_board) by (split; [reflexivity | repeat constructor]).
  split; [exact Hwf|]. exact (would_flip_is_union_of_rays start_board 6 4 0 Hwf).
Defined.

(** ** The legality check *)

Section Adjacency.

Variables (b : Board) (row column : Z).
Hypothesis Hwf : wf_board b.

Lemma adjacent_in_row_spec y xs :
  exists adj,
    adjacent_in_row b row column y xs = Ret adj /\
    (adj = true <->
     exists x v, x ∈ xs /\ (y, x) <> (row, column) /\
                 Spec.holds b (y, x) v /\ v <> EMPTY).
Proof.
  induction xs as [|x xs (adj & Hadj & IH)]; simpl.
  - exists false. split; [reflexivity|]. split; [discriminate|].
    intros (x & v & []%elem_of_nil & _).
  - assert (Hskip : ~ (exists v, (y, x) <> (row, column) /\
                                 Spec.holds b (y, x) v /\ v <> EMPTY) ->
                    adj = true <->
                    exists x' v, x' ∈ x :: xs /\ (y, x') <> (row, column) /\
                                 Spec.holds b (y, x') v /\ v <> EMPTY).
    { intros Hnot. rewrite IH. split.
      - intros (x' & v & Hin & H). exists x', v. rewrite elem_of_cons. auto.
      - intros (x' & v & [->|Hin]%elem_of_cons & H); [|eauto].
        contradiction Hnot. eauto. }
    destruct (out_of_bounds b y x) eqn:Hb.
    { exists adj. split; [assumption|]. apply Hskip.
      apply out_of_bounds_true in Hb. intros (v & _ & [Hin _] & _). auto. }
    apply out_of_bounds_false in Hb.
    destruct ((row =? y) && (column =? x)) eqn:Hsame.
    { exists adj. split; [assumption|]. apply Hskip.
      intros (v & Hne & _). apply Hne. f_equal; lia. }
    destruct (get_cell_in_bounds b y x Hwf Hb) as [v Hv]. rewrite Hv. simpl.
    destruct (v =? EMPTY) eqn:Hempty; simpl.
    { exists adj. split; [assumption|]. apply Hskip.
      apply Z.eqb_eq in Hempty. intros (w & _ & [_ Hw] & Hne).
      simpl in Hw. congruence. }
    exists true. split; [reflexivity|]. split; [|reflexivity]. intros _.
    exists x, v. rewrite elem_of_cons.
    split; [now left|]. split; [intros [= -> ->]; lia|].
    split; [split; assumption | now apply Z.eqb_neq].
Qed.

Lemma adjacent_rows_spec ys :
  exists adj,
    adjacent_rows b row column ys = Ret adj /\
    (adj = true <->
     exists y x v, y ∈ ys /\ x ∈ [column - 1; column; column + 1] /\
                   (y, x) <> (row, column) /\
                   Spec.holds b (y, x) v /\ v <> EMPTY).
Proof.
  induction ys as [|y ys (adj & Hadj & IH)]; cbn [adjacent_rows].
  - exists false. split; [reflexivity|]. split; [discriminate|].
    intros (y & x & v & []%elem_of_nil & _).
  - destruct (adjacent_in_row_spec y [column - 1; column; column + 1])
      as (here & -> & Hhere). cbn [bind].
    destruct here.
    + exists true. split; [reflexivity|]. split; [|reflexivity]. intros _.
      destruct (proj1 Hhere eq_refl) as (x & v & H).
      exists y, x, v. rewrite elem_of_cons. tauto.
    + exists adj. split; [assumption|]. rewrite IH. split.
      * intros (y' & x & v & Hin & H). exists y', x, v. rewrite elem_of_cons. auto.
      * intros (y' & x & v & [->|Hin]%elem_of_cons & H); [|eauto 6].
        assert (false = true); [|discriminate]. apply Hhere. eauto.
Qed.

(** The nine cells scanned, less the target, are the eight neighbours. *)
Lemma neighbours_compass :
  (exists y x v, y ∈ [row - 1; row; row + 1] /\
                 x ∈ [column - 1; column; column + 1] /\
                 (y, x) <> (row, column) /\
                 Spec.holds b (y, x) v /\ v <> EMPTY) <->
  Spec.adjacent_to_disc b row column.
Proof.
  unfold Spec.adjacent_to_disc, Spec.compass. split.
  - intros (y & x & v & Hy & Hx & Hne & H).
    exists (y - row), (x - column), v.
    replace (row + (y - row)) with y by lia.
    replace (column + (x - column)) with x by lia.
    split; [|assumption].
    rewrite !elem_of_cons, !elem_of_nil in Hy, Hx.
    rewrite !elem_of_cons, !elem_of_nil.
    destruct Hy as [->|[->|[->|[]]]], Hx as [->|[->|[->|[]]]];
      try (contradiction Hne; reflexivity);
      repeat (first [left; f_equal; lia | right]).
  - intros (dy & dx & v & Hdir & H).
    exists (row + dy), (column + dx), v.
    rewrite !elem_of_cons, !elem_of_nil in Hdir.
    rewrite !elem_of_cons, !elem_of_nil.
    repeat (destruct Hdir as [[= -> ->]|Hdir];
            [repeat split; try (apply H); try lia; intros [= ? ?]; lia|]).
    contradiction.
Qed.

Lemma adjacency_check :
  exists adj,
    adjacent_rows b row column [row - 1; row; row + 1] = Ret adj /\
    (adj = true <-> Spec.adjacent_to_disc b row column).
Proof.
  destruct (adjacent_rows_spec [row - 1; row; row + 1]) as (adj & Hadj & H).
  exists adj. split; [assumption|]. now rewrite H, neighbours_compass.
Qed.

End Adjacency.

Lemma validate_placing_returns (b : Board) (row column player : Z) :
  wf_board b ->
  exists ok reason, validate_placing b row column player = Ret (ok, reason).
Proof.
  intros Hwf. unfold validate_placing.
  destruct (out_of_bounds b row column) eqn:Hb; [eauto|].
  apply out_of_bounds_false in Hb.
  destruct (get_cell_in_bounds b row column Hwf Hb) as [v ->]. cbn [bind].
  destruct (negb (v =? EMPTY)); [eauto|].
  destruct (adjacency_check b row column Hwf) as (adj & -> & _). cbn [bind].
  destruct (negb adj); [eauto|].
  destruct (would_flip_returns b row column player Hwf) as [flips ->]. cbn [bind].
  destruct flips; eauto.
Qed.

(** C6: for every board and (row, column, player), [validate_placing] answers
    true exactly when the cell is on the grid, is empty, has a non-empty cell
    among its 8 neighbours, and [would_flip] is non-empty there; so a move
    capturing nothing is illegal, and so is a move next to empty cells only,
    whoever plays it. *)
Theorem validate_placing_iff (b : Board) (row column player : Z) :
  wf_board b ->
  exists ok reason flips,
    validate_placing b row column player = Ret (ok, reason) /\
    would_flip b row column player = Ret flips /\
    (ok = true <->
     in_bounds b row column /\
     Spec.holds b (row, column) EMPTY /\
     Spec.adjacent_to_disc b row column /\
     flips <> []) /\
    (flips = [] -> ok = false) /\
    (~ Spec.adjacent_to_disc b row column -> ok = false).
Proof.
  intros Hwf.
  destruct (would_flip_returns b row column player Hwf) as [flips Hflips].
  assert (Hno : forall reason P,
            ~ (in_bounds b row column /\ Spec.holds b (row, column) EMPTY /\
               Spec.adjacent_to_disc b row column /\ flips <> []) ->
            validate_placing b row column player = Ret (false, reason) ->
            exists ok reason flips',
              validate_placing b row column player = Ret (ok, reason) /\
              would_flip b row column player = Ret flips' /\
              (ok = true <->
               in_bounds b row column /\ Spec.holds b (row, column) EMPTY /\
               Spec.adjacent_to_disc b row column /\ flips' <> []) /\
              (flips' = [] -> ok = false) /\ (P -> ok = false)).
  { intros reason P Hnot Hval. exists false, reason, flips.
    split; [assumption|]. split; [assumption|]. split; [|auto].
    split; [discriminate | tauto]. }
  unfold validate_placing in *.
  destruct (out_of_bounds b row column) eqn:Hb.
  { apply out_of_bounds_true in Hb. eapply Hno; [|reflexivity]. tauto. }
  apply out_of_bounds_false in Hb.
  destruct (get_cell_in_bounds b row column Hwf Hb) as [v Hv].
  rewrite Hv in *. cbn [bind] in *.
  destruct (v =? EMPTY) eqn:Hempty; cbn [negb] in *.
  2:{ apply Z.eqb_neq in Hempty. eapply Hno; [|reflexivity].
      intros (_ & [_ Hget] & _). simpl in Hget. congruence. }
  apply Z.eqb_eq in Hempty as ->.
  destruct (adjacency_check b row column Hwf) as (adj & Hadj & Hiff).
  rewrite Hadj in *. cbn [bind] in *.
  destruct adj; cbn [negb] in *.
  2:{ eapply Hno; [|reflexivity]. intros (_ & _ & Hadj' & _).
      apply Hiff in Hadj'. discriminate. }
  rewrite Hflips in *. cbn [bind] in *.
  destruct flips as [|cell flips].
  { eapply Hno; [|reflexivity]. tauto. }
  exists true, EmptyString, (cell :: flips).
  split; [reflexivity|]. split; [reflexivity|].
  split; [|split; [discriminate|]].
  - split; [intros _ | reflexivity].
    split; [assumption|]. split; [split; assumption|].
    split; [now apply Hiff | discriminate].
  - intros Hnot. contradiction Hnot. now apply Hiff.
Qed.

Lemma validate_placing_iff_witness :
  wf_board start_board /\
  exists ok reason flips,
    validate_placing start_board 6 4 0 = Ret (ok, reason) /\
    would_flip start_board 6 4 0 = Ret flips /\
    (ok = true <->
     in_bounds start_board 6 4 /\
     Spec.holds start_board (6, 4) EMPTY /\
     Spec.adjacent_to_disc start_board 6 4 /\
     flips <> []) /\
    (flips = [] -> ok = false) /\
    (~ Spec.adjacent_to_disc start_board 6 4 -> ok = false).
Proof.
  assert (Hwf : wf_board start_board) by (split; [reflexivity | repeat constructor]).
  split; [exact Hwf|]. exact (validate_placing_iff start_board 6 4 0 Hwf).
Defined.

(** ** Scanning the grid for legal moves *)

Lemma validate_placing_is_legal b row column player :
  wf_board b ->
  exists reason,
    validate_placing b row column player = Ret (is_legal b player (row, column), reason).
Proof.
  intros Hwf.
  destruct (validate_placing_returns b row column player Hwf) as (ok & reason & H).
  exists reason. unfold is_legal. simpl. now rewrite H.
Qed.

Lemma is_legal_true b row column player :
  is_legal b player (row, column) = true <->
  exists reason, validate_placing b row column player = Ret (true, reason).
Proof.
  unfold is_legal. simpl. split.
  - destruct (validate_placing b row column player) as [[ok reason]| |];
      try discriminate. intros ->. eauto.
  - intros [reason ->]. reflexivity.
Qed.

Lemma is_legal_in_bounds b row column player :
  is_legal b player (row, column) = true -> in_bounds b row column.
Proof.
  unfold is_legal, validate_placing. simpl.
  destruct (out_of_bounds b row column) eqn:Hb; [discriminate|].
  intros _. now apply out_of_bounds_false.
Qed.

Lemma elem_of_product {A B : Type} (xs : list A) (ys : list B) x y :
  (x, y) ∈ product xs ys <-> x ∈ xs /\ y ∈ ys.
Proof.
  unfold product. rewrite !list_elem_of_In, in_flat_map. split.
  - intros (x' & Hx & Hy). apply in_map_iff in Hy as (y' & [= -> ->] & Hy). auto.
  - intros [Hx Hy]. exists x. split; [assumption|]. apply in_map_iff. eauto.
Qed.

Lemma elem_of_cells b row column :
  (row, column) ∈ Spec.cells b <-> in_bounds b row column.
Proof.
  unfold Spec.cells, range, in_bounds. rewrite elem_of_product, !elem_of_seqZ. lia.
Qed.

Section Scan.

Variables (b : Board) (player : Z).
Hypothesis Hwf : wf_board b.

Lemma valid_moves_columns_spec row cols :
  forall moves,
    valid_moves_columns b player row cols moves =
    Ret (moves ++ filter (fun cell => is_legal b player cell) (map (pair row) cols)).
Proof.
  induction cols as [|c cols IH]; intros moves; simpl.
  - now rewrite filter_nil, app_nil_r.
  - destruct (validate_placing_is_legal b row c player Hwf) as [reason ->].
    simpl. rewrite IH.
    destruct (is_legal b player (row, c)) eqn:Hlegal.
    + rewrite filter_cons_True by now rewrite Hlegal.
      now rewrite <- app_assoc.
    + rewrite filter_cons_False by now rewrite Hlegal.
      reflexivity.
Qed.

Lemma valid_moves_rows_spec rs :
  forall moves,
    valid_moves_rows b player rs moves =
    Ret (moves ++ filter (fun cell => is_legal b player cell)
                    (product rs (range (columns b)))).
Proof.
  induction rs as [|r rs IH]; intros moves; simpl.
  - now rewrite filter_nil, app_nil_r.
  - rewrite valid_moves_columns_spec. simpl. rewrite IH.
    now rewrite filter_app, app_assoc.
Qed.

Lemma has_valid_move_columns_spec row cols :
  has_valid_move_columns b player row cols =
  Ret (existsb (is_legal b player) (map (pair row) cols)).
Proof.
  induction cols as [|c cols IH]; simpl; [reflexivity|].
  destruct (validate_placing_is_legal b row c player Hwf) as [reason ->].
  simpl. destruct (is_legal b player (row, c)); [reflexivity | exact IH].
Qed.

Lemma has_valid_move_rows_spec rs :
  has_valid_move_rows b player rs =
  Ret (existsb (is_legal b player) (product rs (range (columns b)))).
Proof.
  induction rs as [|r rs IH]; simpl; [reflexivity|].
  rewrite has_valid_move_columns_spec. simpl. rewrite existsb_app.
  destruct (existsb (is_legal b player) (map (pair r) (range (columns b))));
    [reflexivity | exact IH].
Qed.

End Scan.

Lemma existsb_filter {A : Type} (f : A -> bool) (l : list A) :
  existsb f l = bool_decide (filter (fun x => f x) l <> []).
Proof.
  induction l as [|x l IH]; simpl; [reflexivity|].
  destruct (f x) eqn:Hx; simpl.
  - rewrite filter_cons_True by now rewrite Hx. reflexivity.
  - rewrite filter_cons_False by now rewrite Hx. exact IH.
Qed.

(** ** Row-major order *)

Lemma StronglySorted_filter {A : Type} (R : relation A) (P : A -> Prop)
    `{forall x, Decision (P x)} (l : list A) :
  StronglySorted R l -> StronglySorted R (filter P l).
Proof.
  induction 1 as [|x l Hl IH Hx]; [constructor|].
  rewrite filter_cons. destruct (decide (P x)); [|assumption].
  constructor; [assumption|].
  apply Forall_forall. intros y [_ Hy]%list_elem_of_filter.
  revert y Hy. now apply Forall_forall.
Qed.

Lemma seqZ_sorted m n : StronglySorted Z.lt (seqZ m n).
Proof.
  destruct (Z_lt_le_dec n 0) as [Hneg|Hnn]; [rewrite seqZ_nil by lia; constructor|].
  rewrite <- (Z2Nat.id n) by assumption.
  induction (Z.to_nat n) as [|k IH]; [constructor|].
  rewrite seqZ_S. apply StronglySorted_app_2; [|assumption|repeat constructor].
  intros x y Hx%elem_of_seqZ ->%list_elem_of_singleton. lia.
Qed.

Lemma product_row_major (xs ys : list Z) :
  StronglySorted Z.lt xs -> StronglySorted Z.lt ys ->
  StronglySorted Spec.row_major_lt (product xs ys).
Proof.
  intros Hxs Hys. induction Hxs as [|x xs Hxs IH Hx]; [constructor|].
  change (product (x :: xs) ys) with (map (pair x) ys ++ product xs ys).
  apply StronglySorted_app_2; [| |assumption].
  - intros [x1 y1] [x2 y2] H1 [H2 _]%elem_of_product.
    apply list_elem_of_In, in_map_iff in H1 as (y & [= -> ->] & _).
    left. simpl. revert x2 H2. now apply Forall_forall.
  - clear -Hys. induction Hys as [|y ys Hys IH Hy]; [constructor|].
    simpl. constructor; [assumption|].
    apply Forall_forall. intros [x' y'] Hin.
    apply list_elem_of_In, in_map_iff in Hin as (y'' & [= -> ->] & Hin).
    right. simpl. split; [reflexivity|].
    apply list_elem_of_In in Hin. revert y' Hin. now apply Forall_forall.
Qed.

Lemma cells_row_major b : StronglySorted Spec.row_major_lt (Spec.cells b).
Proof. apply product_row_major; apply seqZ_sorted. Qed.

(** C8: for every board and player, [valid_moves] returns exactly the cells
    that [validate_placing] accepts, in ascending row-major order (the scan of
    all cells, filtered by the legality check alone), and [has_valid_move]
    is true exactly when that list is non-empty. *)
Theorem valid_moves_row_major (b : Board) (player : Z) :
  wf_board b ->
  exists moves,
    valid_moves b player = Ret moves /\
    moves = filter (fun cell => is_legal b player cell) (Spec.cells b) /\
    (forall row column,
       (row, column) ∈ moves <->
       exists reason, validate_placing b row column player = Ret (true, reason)) /\
    StronglySorted Spec.row_major_lt moves /\
    has_valid_move b player = Ret (bool_decide (moves <> [])).
Proof.
  intros Hwf. eexists. split; [|split; [reflexivity|]].
  - unfold valid_moves. now rewrite valid_moves_rows_spec.
  - split; [|split].
    + intros row column. rewrite list_elem_of_filter, elem_of_cells.
      rewrite <- is_legal_true. split.
      * intros [H _]. now apply Is_true_true.
      * intros H. split; [now apply Is_true_true|].
        now apply is_legal_in_bounds in H.
    + apply StronglySorted_filter, cells_row_major.
    + unfold has_valid_move. rewrite has_valid_move_rows_spec by assumption.
      now rewrite existsb_filter.
Qed.

Lemma valid_moves_row_major_witness :
  wf_board start_board /\
  exists moves,
    valid_moves start_board 0 = Ret moves /\
    moves = filter (fun cell => is_legal start_board 0 cell) (Spec.cells start_board) /\
    (forall row column,
       (row, column) ∈ moves <->
       exists reason, validate_placing start_board row column 0 = Ret (true, reason)) /\
    StronglySorted Spec.row_major_lt moves /\
    has_valid_move start_board 0 = Ret (bool_decide (moves <> [])).
Proof.
  assert (Hwf : wf_board start_board) by (split; [reflexivity | repeat constructor]).
  split; [exact Hwf|]. exact (valid_moves_row_major start_board 0 Hwf).
Defined.

(** ** Placing a disc *)

Lemma would_flip_in_bounds b row column player flips :
  would_flip b row column player = Ret flips ->
  forall cell, cell ∈ flips -> in_bounds b cell.1 cell.2.
Proof.
  intros Hflips cell Hin.
  apply (would_flip_captures _ _ _ _ _ Hflips) in Hin
    as (dy & dx & _ & n & k & Hk & -> & Hopp & _).
  destruct (Hopp k Hk) as (v & [Hb _] & _). exact Hb.
Qed.

Lemma flip_all_in_bounds player to_flip :
  forall b,
    wf_board b ->
    (forall cell, cell ∈ to_flip -> in_bounds b cell.1 cell.2) ->
    exists b', flip_all b to_flip player = Ret b' /\ wf_board b' /\
               rows b' = rows b /\ columns b' = columns b.
Proof.
  induction to_flip as [|[x y] rest IH]; intros b Hwf Hin; simpl; [eauto|].
  destruct (Hin (x, y)) as [Hx Hy]; [left|]. simpl in Hx, Hy.
  destruct (set_cell_valid b x y player Hwf) as (b1 & -> & Hwf1 & Hr & Hc & _);
    [lia | lia |]. simpl.
  destruct (IH b1 Hwf1) as (b' & -> & Hwf' & Hr' & Hc').
  - intros cell Hcell. unfold in_bounds. rewrite Hr, Hc.
    apply Hin. now right.
  - exists b'. repeat split; try apply Hwf'; congruence.
Qed.

(** [place] succeeds at every index-valid position of a well-formed board,
    legal or not, and leaves [player] there. *)
Lemma place_index_valid b row column player :
  wf_board b -> - rows b <= row < rows b -> - columns b <= column < columns b ->
  exists b', place b row column player = Ret b' /\ wf_board b' /\
    rows b' = rows b /\ columns b' = columns b /\
    forall r' c',
      index (Z.to_nat (rows b)) r' = index (Z.to_nat (rows b)) row ->
      index (Z.to_nat (columns b)) c' = index (Z.to_nat (columns b)) column ->
      get_cell b' r' c' = Ret player.
Proof.
  intros Hwf Hrow Hcol. unfold place.
  destruct (validate_placing_returns b row column player Hwf) as (ok & reason & ->).
  destruct (would_flip_returns b row column player Hwf) as [flips Hflips].
  cbn [bind]. rewrite Hflips. cbn [bind].
  destruct (flip_all_in_bounds player flips b Hwf) as (b1 & -> & Hwf1 & Hr & Hc).
  { now apply (would_flip_in_bounds b row column player). }
  cbn [bind].
  destruct (set_cell_valid b1 row column player Hwf1) as (b' & -> & Hwf' & Hr' & Hc' & Hget);
    [lia | lia |].
  exists b'. rewrite Hr, Hc in *. repeat split; try apply Hwf'; auto.
Qed.

(** C10: asked to place at row -1 and a column of the grid, [place] does not
    fail: [validate_placing] answers "out of bounds", the answer is dropped,
    and the cell of the last row in that column is written with [player]. *)
Theorem place_row_minus_one (b : Board) (column player : Z) :
  wf_board b -> 0 < rows b -> 0 <= column < columns b ->
  validate_placing b (-1) column player = Ret (false, "Placement out of bounds."%string) /\
  exists b',
    place b (-1) column player = Ret b' /\
    get_cell b' (rows b - 1) column = Ret player.
Proof.
  intros Hwf Hrows Hcol. split.
  - unfold validate_placing.
    assert (out_of_bounds b (-1) column = true) as -> by (apply out_of_bounds_true; intros []; lia).
    reflexivity.
  - destruct (place_index_valid b (-1) column player Hwf) as (b' & Hplace & _ & _ & _ & Hget);
      [lia | lia |].
    exists b'. split; [assumption|]. apply Hget; [|reflexivity].
    rewrite index_nonneg, index_negative by lia. f_equal. lia.
Qed.

Lemma place_row_minus_one_witness :
  (wf_board start_board /\ 0 < rows start_board /\ 0 <= 3 < columns start_board) /\
  validate_placing start_board (-1) 3 1 = Ret (false, "Placement out of bounds."%string) /\
  exists b',
    place start_board (-1) 3 1 = Ret b' /\
    get_cell b' (rows start_board - 1) 3 = Ret 1.
Proof.
  assert (Hwf : wf_board start_board) by (split; [reflexivity | repeat constructor]).
  assert (Hrows : 0 < rows start_board) by reflexivity.
  assert (Hcol : 0 <= 3 < columns start_board) by (simpl; lia).
  split; [auto|]. exact (place_row_minus_one start_board 3 1 Hwf Hrows Hcol).
Defined.

(** ** The search *)

Lemma minimax_base_case heuristic fuel b depth maximizing_player current_player
    num_players turns_passed :
  depth = 0 \/ turns_passed = num_players ->
  minimax heuristic (S fuel) b depth maximizing_player current_player num_players
    turns_passed = Ret (VNum (heuristic b current_player), b).
Proof.
  intros H. simpl.
  assert ((depth =? 0) || (turns_passed =? num_players) = true) as -> by lia.
  reflexivity.
Qed.




Lemma valid_moves_in_bounds b player moves :
  wf_board b -> valid_moves b player = Ret moves ->
  forall cell, cell ∈ moves -> in_bounds b cell.1 cell.2.
Proof.
  intros Hwf Hmoves [r c] Hin. unfold valid_moves in Hmoves.
  rewrite valid_moves_rows_spec in Hmoves by assumption.
  injection Hmoves as <-. simpl in Hin.
  apply list_elem_of_filter in Hin as [_ Hin]. now apply elem_of_cells.
Qed.

Section Returns.

Variable heuristic : heuristic_t.
Variables (nrows ncols : Z).

(** The boards a search works on: well-formed, of one fixed shape. *)
#[local] Abbreviation shaped b := (wf_board b /\ rows b = nrows /\ columns b = ncols).

Lemma expand_returns recurse maximizing_player current_player moves :
  (forall b, shaped b -> exists v b', recurse b = Ret (VNum v, b') /\ shaped b') ->
  forall max_eval b,
    shaped b ->
    (forall cell, cell ∈ moves -> in_bounds b cell.1 cell.2) ->
    exists res b',
      expand recurse maximizing_player current_player moves max_eval b = Ret (res, b') /\
      shaped b' /\
      (max_eval <> VNone \/ moves <> [] -> res <> VNone).
Proof.
  intros Hrec. induction moves as [|[move_row move_col] moves IH];
    intros max_eval b Hb Hmoves; cbn [expand].
  - exists max_eval, b. split; [reflexivity|]. split; [assumption|].
    intros [H|H]; [assumption | contradiction].
  - destruct Hb as (Hwf & Hr & Hc).
    destruct (Hmoves (move_row, move_col)) as [Hrow Hcol]; [left|]. simpl in Hrow, Hcol.
    destruct (place_index_valid b move_row move_col current_player Hwf)
      as (b1 & -> & Hwf1 & Hr1 & Hc1 & _); [lia | lia |]. cbn [bind].
    destruct (Hrec b1) as (v & b2 & -> & Hwf2 & Hr2 & Hc2); [split; [assumption | split; congruence]|].
    cbn [bind fst snd].
    destruct (set_cell_valid b2 move_row move_col EMPTY Hwf2)
      as (b3 & -> & Hwf3 & Hr3 & Hc3 & _); [lia | lia |]. cbn [bind].
    assert (exists w, match max_eval with
                      | VNone => Ret (VNum v)
                      | VNum _ => aggregate (current_player =? maximizing_player)
                                    max_eval (VNum v)
                      end = Ret (VNum w)) as [w ->].
    { destruct max_eval; simpl; eauto. }
    cbn [bind].
    destruct (IH (VNum w) b3) as (res & b' & -> & Hb' & Hres).
    + split; [assumption | split; congruence].
    + intros cell Hcell. unfold in_bounds. rewrite Hr3, Hc3, Hr2, Hc2, <- Hr, <- Hc.
      apply Hmoves. now right.
    + exists res, b'. split; [reflexivity|]. split; [assumption|].
      intros _. apply Hres. now left.
Qed.

(** On a well-formed board, with a non-zero player count and a non-negative
    depth, the search returns a number and a well-formed board of the shape
    it was given. *)
Lemma minimax_returns fuel :
  forall b depth maximizing_player current_player num_players turns_passed,
    shaped b -> num_players <> 0 -> 0 <= depth -> (Z.to_nat depth < fuel)%nat ->
    exists v b',
      minimax heuristic fuel b depth maximizing_player current_player num_players
        turns_passed = Ret (VNum v, b') /\ shaped b'.
Proof.
  induction fuel as [|fuel IH];
    intros b depth maximizing_player current_player num_players turns_passed
      Hb Hplayers Hdepth Hfuel; [lia|].
  cbn [minimax].
  destruct ((depth =? 0) || (turns_passed =? num_players)) eqn:Hbase; [eauto|].
  pose proof Hb as (Hwf & Hr & Hc).
  destruct (returns (valid_moves b current_player)) as [moves Hmoves];
    [apply valid_moves_terminates | |].
  { unfold valid_moves. rewrite valid_moves_rows_spec by assumption.
    apply Ret_no_raise. }
  rewrite Hmoves. cbn [bind]. unfold mod_.
  assert ((num_players =? 0) = false) as -> by lia. cbn [bind].
  destruct moves as [|m moves].
  - destruct (IH b (depth - 1) maximizing_player
                ((current_player + 1) mod num_players) num_players (turns_passed + 1))
      as (v & b' & -> & _); [assumption | assumption | lia | lia |].
    cbn [bind fst]. eauto.
  - destruct (expand_returns
                (fun b' => minimax heuristic fuel b' (depth - 1) maximizing_player
                             ((current_player + 1) mod num_players) num_players 0)
                maximizing_player current_player (m :: moves))
      with (max_eval := VNone) (b := b) as (res & b' & Hexp & Hb' & Hres).
    + intros b0 Hb0. apply IH; [assumption | assumption | lia | lia].
    + assumption.
    + now apply (valid_moves_in_bounds b current_player).
    + rewrite Hexp. destruct res as [|v]; [|eauto].
      contradiction Hres; [now right | reflexivity].
Qed.

End Returns.

(** C1 (the code departs from it): at the base case [minimax] hands the
    heuristic the player whose turn it is at that node, not the maximizing
    player.  At depth 0 with maximizing player 0 and player 1 to move, the
    disc-counting heuristic is asked about player 1 (3 discs), not player 0
    (5 discs). *)
Theorem minimax_base_case_perspective :
  minimax disc_count 1 after_first_move 0 0 1 3 0 =
    Ret (VNum (disc_count after_first_move 1), after_first_move) /\
  disc_count after_first_move 1 = 3 /\
  disc_count after_first_move 0 = 5.
Proof.
  split; [apply minimax_base_case; now left|].
  split; vm_compute; reflexivity.
Qed.

(** C3 (the code departs from it): the undo of the expansion loop empties the
    placed cell only.  After a search of depth 1 from the start position the
    cells captured by the simulated placements stay captured: (3, 4), a disc
    of player 1 captured by the first move tried, (2, 4), and (5, 4), a disc
    of player 2, belong to player 0 after the call. *)
Theorem minimax_leaves_captures (heuristic : heuristic_t) :
  exists v b',
    minimax heuristic 2 start_board 1 0 0 3 0 = Ret (v, b') /\
    get_cell start_board 3 4 = Ret 1 /\ get_cell b' 3 4 = Ret 0 /\
    get_cell start_board 5 4 = Ret 2 /\ get_cell b' 5 4 = Ret 0 /\
    board b' <> board start_board.
Proof.
  eexists. eexists. split; [vm_compute; reflexivity|].
  repeat (split; [reflexivity|]). discriminate.
Qed.

(** C4 (the code departs from it): [place] applies moves that
    [validate_placing] rejects.  On the start position it writes a disc next
    to no other ((0, 0)), on a taken square ((3, 3), capturing on top), and
    where nothing is captured ((2, 2)); no exception is raised. *)
Theorem place_applies_rejected_moves :
  (validate_placing start_board 0 0 0 =
     Ret (false, "New disc must be adjacent to some existing one."%string) /\
   exists b', place start_board 0 0 0 = Ret b' /\
              get_cell start_board 0 0 = Ret EMPTY /\ get_cell b' 0 0 = Ret 0) /\
  (validate_placing start_board 3 3 1 = Ret (false, "Square taken."%string) /\
   exists b', place start_board 3 3 1 = Ret b' /\
              get_cell start_board 3 3 = Ret 0 /\ get_cell b' 3 3 = Ret 1 /\
              get_cell start_board 4 4 = Ret 0 /\ get_cell b' 4 4 = Ret 1) /\
  (validate_placing start_board 2 2 0 =
     Ret (false, "Move won't flip any disks."%string) /\
   exists b', place start_board 2 2 0 = Ret b' /\
              get_cell start_board 2 2 = Ret EMPTY /\ get_cell b' 2 2 = Ret 0).
Proof.
  repeat split; try (vm_compute; reflexivity);
    eexists; (split; [vm_compute; reflexivity|]); repeat split; reflexivity.
Qed.

(** ** Scoring *)

Lemma scores_eq (a b c a' b' c' : Z) :
  a = a' -> b = b' -> c = c' -> @Ret (list Z) [a; b; c] = Ret [a'; b'; c'].
Proof. now intros -> -> ->. Qed.

(** On a grid holding players 0, 1, 2 and [EMPTY], the tally adds the empty
    cells to the last score: [scores[-1]] is [scores[2]]. *)
Lemma count_row_spec cells :
  Forall (fun cell => -1 <= cell <= 2) cells ->
  forall s0 s1 s2,
    count_row cells [s0; s1; s2] =
    Ret [ s0 + Z.of_nat (length (filter (fun x => x = 0) cells));
          s1 + Z.of_nat (length (filter (fun x => x = 1) cells));
          s2 + Z.of_nat (length (filter (fun x => x = 2) cells))
             + Z.of_nat (length (filter (fun x => x = EMPTY) cells)) ].
Proof.
  induction 1 as [|cell cells Hcell _ IH]; intros s0 s1 s2.
  - simpl. apply scores_eq; lia.
  - assert (cell = -1 \/ cell = 0 \/ cell = 1 \/ cell = 2) as [->|[->|[->| ->]]] by lia;
      cbn [count_row];
      [ change (getitem [s0; s1; s2] (-1)) with (Ret s2); cbn [bind];
        change (setitem [s0; s1; s2] (-1) (s2 + 1)) with (Ret [s0; s1; s2 + 1])
      | change (getitem [s0; s1; s2] 0) with (Ret s0); cbn [bind];
        change (setitem [s0; s1; s2] 0 (s0 + 1)) with (Ret [s0 + 1; s1; s2])
      | change (getitem [s0; s1; s2] 1) with (Ret s1); cbn [bind];
        change (setitem [s0; s1; s2] 1 (s1 + 1)) with (Ret [s0; s1 + 1; s2])
      | change (getitem [s0; s1; s2] 2) with (Ret s2); cbn [bind];
        change (setitem [s0; s1; s2] 2 (s2 + 1)) with (Ret [s0; s1; s2 + 1]) ];
      cbn [bind]; rewrite IH; rewrite !filter_cons; unfold EMPTY;
      repeat case_decide; try lia; cbn [length]; apply scores_eq; lia.
Qed.

Lemma count_rows_spec grid :
  Forall (Forall (fun cell => -1 <= cell <= 2)) grid ->
  forall s0 s1 s2,
    count_rows grid [s0; s1; s2] =
    Ret [ s0 + Z.of_nat (length (filter (fun x => x = 0) (concat grid)));
          s1 + Z.of_nat (length (filter (fun x => x = 1) (concat grid)));
          s2 + Z.of_nat (length (filter (fun x => x = 2) (concat grid)))
             + Z.of_nat (length (filter (fun x => x = EMPTY) (concat grid))) ].
Proof.
  induction 1 as [|row grid Hrow _ IH]; intros s0 s1 s2.
  - simpl. apply scores_eq; lia.
  - cbn [count_rows concat]. rewrite (count_row_spec row Hrow). cbn [bind].
    rewrite IH, !filter_app, !length_app. apply scores_eq; lia.
Qed.

Lemma winner_of_scores (a b c : Z) :
  (let max_score := list_max a [b; c] in
   if (1 <? Z.of_nat (length (filter (fun x => x = max_score) [a; b; c])))
   then Ret None
   else i <- list_index max_score [a; b; c] ;; Ret (Some i)) =
  Ret (if (b <? a) && (c <? a) then Some 0
       else if (a <? b) && (c <? b) then Some 1
       else if (a <? c) && (b <? c) then Some 2
       else None).
Proof.
  unfold list_max. cbn [fold_left]. cbv zeta.
  rewrite !filter_cons, filter_nil.
  repeat case_decide; cbn [length list_index];
    repeat match goal with
           | |- context [?x =? ?y] => destruct (Z.eqb_spec x y)
           | |- context [?x <? ?y] => destruct (Z.ltb_spec x y)
           end;
    cbn [bind andb Z.of_nat]; try reflexivity; lia.
Qed.

(** What [get_winner] computes on a grid of players 0, 1, 2 and [EMPTY]: the
    strict maximum of the three tallies, or a draw, where the tally of player
    2 includes the empty cells. *)
Lemma get_winner_spec b :
  Forall (Forall (fun cell => -1 <= cell <= 2)) (board b) ->
  let s0 := count_cells b 0 in
  let s1 := count_cells b 1 in
  let s2 := count_cells b 2 + count_cells b EMPTY in
  get_winner b =
  Ret (if (s1 <? s0) && (s2 <? s0) then Some 0
       else if (s0 <? s1) && (s2 <? s1) then Some 1
       else if (s0 <? s2) && (s1 <? s2) then Some 2
       else None).
Proof.
  intros Hcells. unfold get_winner, count_cells.
  rewrite (count_rows_spec _ Hcells). cbn [bind]. rewrite !Z.add_0_l.
  apply winner_of_scores.
Qed.

(** C2 (the code departs from it): [get_winner] counts the empty cells for
    player 2.  With 10, 10 and 5 discs on the 9 x 9 grid it names player 2
    the winner (56 empty cells make 61), where a draw is due; with 12, 5 and
    5 discs it names player 2 again, where player 0 leads. *)
Theorem get_winner_counts_empty_cells :
  (count_cells tie_board 0 = 10 /\ count_cells tie_board 1 = 10 /\
   count_cells tie_board 2 = 5 /\
   count_rows (board tie_board) [0; 0; 0] = Ret [10; 10; 61] /\
   get_winner tie_board = Ret (Some 2)) /\
  (count_cells lead_board 0 = 12 /\ count_cells lead_board 1 = 5 /\
   count_cells lead_board 2 = 5 /\
   count_rows (board lead_board) [0; 0; 0] = Ret [12; 5; 64] /\
   get_winner lead_board = Ret (Some 2)).
Proof. repeat split; vm_compute; reflexivity. Qed.

(** * Further properties of the board and the search *)

(** ** Reading and writing cells *)

Lemma get_cell_lookup b r c :
  wf_board b -> in_bounds b r c ->
  exists row x,
    board b !! Z.to_nat r = Some row /\ row !! Z.to_nat c = Some x /\
    get_cell b r c = Ret x.
Proof.
  intros Hwf [Hr Hc]. unfold get_cell.
  pose proof (index_nonneg (length (board b)) r) as Hi.
  destruct Hwf as [Hrows Hall]. rewrite Hrows in Hi. specialize (Hi Hr).
  destruct (getitem_index _ _ _ Hi) as (row & Hrow & ->). cbn [bind].
  pose proof (wf_row b _ _ (conj Hrows Hall) Hrow) as Hlen.
  pose proof (index_nonneg (length row) c) as Hj.
  rewrite Hlen in Hj. specialize (Hj Hc).
  destruct (getitem_index _ _ _ Hj) as (x & Hx & ->). eauto.
Qed.

Lemma set_cell_lookup b r c v :
  wf_board b -> in_bounds b r c ->
  exists row,
    board b !! Z.to_nat r = Some row /\
    set_cell b r c v =
    Ret (with_board b (<[Z.to_nat r := <[Z.to_nat c := v]> row]> (board b))).
Proof.
  intros Hwf [Hr Hc]. unfold set_cell.
  pose proof (index_nonneg (length (board b)) r) as Hi.
  pose proof Hwf as [Hrows Hall]. rewrite Hrows in Hi. specialize (Hi Hr).
  destruct (getitem_index _ _ _ Hi) as (row & Hrow & ->). cbn [bind].
  pose proof (wf_row b _ _ Hwf Hrow) as Hlen.
  pose proof (index_nonneg (length row) c) as Hj.
  rewrite Hlen in Hj. specialize (Hj Hc).
  unfold setitem. rewrite Hj. cbn [bind]. rewrite Hi. cbn [bind]. eauto.
Qed.

(** Writing a cell of the grid changes that cell and no other. *)
Lemma set_cell_frame b r c v b' :
  wf_board b -> in_bounds b r c -> set_cell b r c v = Ret b' ->
  wf_board b' /\ rows b' = rows b /\ columns b' = columns b /\
  forall r' c',
    in_bounds b r' c' ->
    get_cell b' r' c' = if decide ((r', c') = (r, c)) then Ret v else get_cell b r' c'.
Proof.
  intros Hwf Hb Hset.
  destruct (set_cell_valid b r c v Hwf) as (b1 & Hset1 & Hwf' & Hr' & Hc' & Hsame);
    [destruct Hb; lia | destruct Hb; lia |].
  assert (b1 = b') as -> by congruence.
  split; [assumption|]. split; [assumption|]. split; [assumption|].
  intros r' c' Hb'. destruct (decide ((r', c') = (r, c))) as [[= -> ->]|Hne].
  { now apply Hsame. }
  destruct (set_cell_lookup b r c v Hwf Hb) as (row & Hrow & Hset2).
  assert (b' = with_board b (<[Z.to_nat r := <[Z.to_nat c := v]> row]> (board b)))
    as Hb'eq by congruence.
  destruct (get_cell_lookup b r' c' Hwf Hb') as (row0 & x & Hrow0 & Hx & ->).
  destruct (get_cell_lookup b' r' c' Hwf') as (row1 & y & Hrow1 & Hy & ->);
    [unfold in_bounds; rewrite Hr', Hc'; exact Hb'|].
  f_equal. rewrite Hb'eq in Hrow1. simpl in Hrow1.
  destruct Hb as [Hr Hc], Hb' as [Hr0 Hc0].
  destruct (decide (Z.to_nat r = Z.to_nat r')) as [Heq|Hner].
  - rewrite Heq in Hrow1, Hrow. rewrite list_lookup_insert_eq in Hrow1
      by (eapply lookup_lt_Some; eauto).
    injection Hrow1 as <-. assert (row0 = row) as -> by congruence.
    rewrite list_lookup_insert_ne in Hy; [congruence|].
    intros Hc1. apply Hne. f_equal; lia.
  - rewrite list_lookup_insert_ne in Hrow1 by assumption. congruence.
Qed.

(** [flip_all] hands the listed cells to [player] and touches no other. *)
Lemma flip_all_frame player to_flip :
  forall b,
    wf_board b ->
    (forall cell, cell ∈ to_flip -> in_bounds b cell.1 cell.2) ->
    exists b',
      flip_all b to_flip player = Ret b' /\ wf_board b' /\
      rows b' = rows b /\ columns b' = columns b /\
      forall r c,
        in_bounds b r c ->
        get_cell b' r c = if decide ((r, c) ∈ to_flip) then Ret player else get_cell b r c.
Proof.
  induction to_flip as [|[x y] rest IH]; intros b Hwf Hin; cbn [flip_all].
  - exists b. repeat (split; [auto; fail|]). intros r c _.
    destruct (decide ((r, c) ∈ [])) as [[]%elem_of_nil|]; reflexivity.
  - assert (Hxy : in_bounds b x y) by (apply (Hin (x, y)); left).
    destruct (set_cell_lookup b x y player Hwf Hxy) as (row & _ & Hset).
    destruct (set_cell_frame b x y player _ Hwf Hxy Hset) as (Hwf1 & Hr1 & Hc1 & Hget1).
    rewrite Hset. cbn [bind].
    destruct (IH _ Hwf1) as (b' & Hflip & Hwf' & Hr' & Hc' & Hget').
    { intros cell Hcell. unfold in_bounds. rewrite Hr1, Hc1. apply Hin. now right. }
    exists b'. split; [assumption|]. split; [assumption|].
    split; [congruence|]. split; [congruence|].
    intros r c Hb. rewrite Hget' by (unfold in_bounds; rewrite Hr1, Hc1; exact Hb).
    rewrite Hget1 by assumption.
    destruct (decide ((r, c) ∈ rest)) as [Hrest|Hrest].
    + rewrite decide_True by now right. reflexivity.
    + destruct (decide ((r, c) = (x, y))) as [->|Hne].
      * rewrite decide_True by now left. reflexivity.
      * rewrite decide_False; [reflexivity|].
        intros [?|?]%elem_of_cons; contradiction.
Qed.

(** ** What a placement captures *)

Lemma compass_nonzero dy dx k :
  (dy, dx) ∈ Spec.compass -> 1 <= k -> (k * dy, k * dx) <> (0, 0).
Proof.
  intros [_ Hdir]%compass_directions Hk [= Hy Hx].
  assert (dy = 0) by nia. assert (dx = 0) by nia. subst. discriminate.
Qed.

(** Every captured cell is on the grid, is not the target, and holds a disc
    of another player. *)
Lemma would_flip_members b row column player flips cell :
  would_flip b row column player = Ret flips -> cell ∈ flips ->
  in_bounds b cell.1 cell.2 /\ cell <> (row, column) /\
  exists v, get_cell b cell.1 cell.2 = Ret v /\ v <> player /\ v <> EMPTY.
Proof.
  intros Hflips Hin.
  apply (would_flip_captures _ _ _ _ _ Hflips) in Hin
    as (dy & dx & Hdir & n & k & Hk & -> & Hopp & _).
  destruct (Hopp k Hk) as (v & [Hb Hv] & Hne).
  split; [exact Hb|]. split; [|eauto].
  unfold Spec.along. intros [= Hy Hx].
  apply (compass_nonzero dy dx k Hdir); [lia|]. f_equal; lia.
Qed.

Section RayShape.

Variables (b : Board) (row column player dy dx : Z).

#[local] Abbreviation ray_cell := (Spec.along row column dy dx).

(** A ray contributes an initial stretch of its line: the cells 1 to [n - 1]
    steps out, in that order. *)
Lemma walk_stretch fuel :
  forall m visited ray,
    1 <= m ->
    walk fuel b player dy dx (row + m * dy) (column + m * dx) visited = Ret ray ->
    visited = ray_cell <$> seqZ 1 (m - 1) ->
    exists n, 1 <= n /\ ray = ray_cell <$> seqZ 1 (n - 1).
Proof.
  induction fuel as [|fuel IH]; intros m visited ray Hm Hwalk Hvis; [discriminate|].
  simpl in Hwalk.
  destruct (out_of_bounds b (row + m * dy) (column + m * dx)).
  { injection Hwalk as <-. exists 1. split; [lia | reflexivity]. }
  apply bind_Ret_inv in Hwalk as (v & _ & Hwalk).
  destruct (v =? player).
  { injection Hwalk as <-. exists m. auto. }
  destruct (v =? EMPTY).
  { injection Hwalk as <-. exists 1. split; [lia | reflexivity]. }
  replace (row + m * dy + dy) with (row + (m + 1) * dy) in Hwalk by lia.
  replace (column + m * dx + dx) with (column + (m + 1) * dx) in Hwalk by lia.
  apply (IH (m + 1) _ ray ltac:(lia) Hwalk).
  replace (m + 1 - 1) with ((m - 1) + 1) by lia.
  rewrite seqZ_app, fmap_app by lia. rewrite Hvis. f_equal.
  replace (1 + (m - 1)) with m by lia. reflexivity.
Qed.

Lemma ray_NoDup fuel ray :
  (dy =? dx) && (dx =? 0) = false ->
  walk fuel b player dy dx (row + dy) (column + dx) [] = Ret ray ->
  NoDup ray /\ forall cell, cell ∈ ray -> exists k, 1 <= k /\ cell = ray_cell k.
Proof.
  intros Hdir Hwalk.
  destruct (walk_stretch fuel 1 [] ray) as (n & Hn & ->);
    [lia | now rewrite !Z.mul_1_l | reflexivity |].
  split.
  - apply NoDup_fmap_2_strong; [|apply NoDup_seqZ].
    intros j k _ _ [= Hy Hx]. nia.
  - intros cell (k & -> & Hk%elem_of_seqZ)%list_elem_of_fmap. exists k. split; [lia | reflexivity].
Qed.

End RayShape.

(** Two of the nine steps that reach the same cell are the same step. *)
Lemma along_direction row column dy dx dy' dx' k k' :
  -1 <= dy <= 1 -> -1 <= dx <= 1 -> -1 <= dy' <= 1 -> -1 <= dx' <= 1 ->
  1 <= k -> 1 <= k' ->
  Spec.along row column dy dx k = Spec.along row column dy' dx' k' ->
  (dy, dx) = (dy', dx').
Proof.
  unfold Spec.along. intros Hdy Hdx Hdy' Hdx' Hk Hk' [= Hy Hx].
  assert (dy = -1 \/ dy = 0 \/ dy = 1) as [->|[->| ->]] by lia;
    assert (dy' = -1 \/ dy' = 0 \/ dy' = 1) as [->|[->| ->]] by lia;
    try lia;
    (assert (dx = -1 \/ dx = 0 \/ dx = 1) as [->|[->| ->]] by lia;
     assert (dx' = -1 \/ dx' = 0 \/ dx' = 1) as [->|[->| ->]] by lia;
     try lia; reflexivity).
Qed.

Lemma would_flip_loop_NoDup b row column player dirs :
  forall flips result,
    NoDup dirs ->
    Forall (fun d => (-1 <= d.1 <= 1) /\ (-1 <= d.2 <= 1)) dirs ->
    NoDup flips ->
    (forall cell d k, cell ∈ flips -> d ∈ dirs -> 1 <= k ->
                      cell <> Spec.along row column d.1 d.2 k) ->
    would_flip_loop b row column player dirs flips = Ret result ->
    NoDup result.
Proof.
  induction dirs as [|[dy dx] dirs IH];
    intros flips result Hdirs Hunit Hflips Hfresh Hloop; cbn [would_flip_loop] in Hloop.
  - now injection Hloop as <-.
  - apply NoDup_cons in Hdirs as [Hnotin Hdirs].
    apply Forall_cons in Hunit as [[Hdy Hdx] Hunit]. simpl in Hdy, Hdx.
    destruct ((dy =? dx) && (dx =? 0)) eqn:Hdir.
    + apply (IH flips result); auto.
      intros cell d k Hc Hd. apply Hfresh; [assumption | now right].
    + apply bind_Ret_inv in Hloop as (ray & Hray & Hloop).
      destruct (ray_NoDup _ _ _ _ _ _ _ _ Hdir Hray) as [Hnodup Hline].
      apply (IH (flips ++ ray) result); auto.
      * apply NoDup_app. split; [assumption|]. split; [|assumption].
        intros cell Hc Hr. destruct (Hline cell Hr) as (k & Hk & ->).
        apply (Hfresh _ (dy, dx) k Hc); [now left | assumption | reflexivity].
      * intros cell [dy' dx'] k [Hc|Hc]%elem_of_app Hd Hk.
        -- apply Hfresh; [assumption | now right | assumption].
        -- destruct (Hline cell Hc) as (j & Hj & ->). simpl. intros Heq.
           apply Hnotin.
           assert (Hd' := proj1 (Forall_forall _ _) Hunit _ Hd). simpl in Hd'.
           rewrite (along_direction row column dy dx dy' dx' j k); auto; tauto.
Qed.

(** X5: on a well-formed board [would_flip] lists no cell twice, and every
    cell it lists is on the grid, is not the target, and holds a disc of
    another player (neither empty nor the player's own). *)
Theorem would_flip_distinct_opposing (b : Board) (row column player : Z) :
  wf_board b ->
  exists flips,
    would_flip b row column player = Ret flips /\
    NoDup flips /\
    forall cell, cell ∈ flips ->
      in_bounds b cell.1 cell.2 /\ cell <> (row, column) /\
      exists v, get_cell b cell.1 cell.2 = Ret v /\ v <> player /\ v <> EMPTY.
Proof.
  intros Hwf. destruct (would_flip_returns b row column player Hwf) as [flips Hflips].
  exists flips. split; [assumption|]. split.
  - unfold would_flip in Hflips.
    apply (would_flip_loop_NoDup _ _ _ _ _ _ _) with (5 := Hflips).
    + apply (bool_decide_unpack (NoDup (product [-1; 0; 1] [-1; 0; 1]))).
      vm_compute. exact I.
    + repeat constructor; simpl; lia.
    + constructor.
    + intros cell d k []%elem_of_nil.
  - intros cell Hin. now apply (would_flip_members b row column player flips).
Qed.

Lemma would_flip_distinct_opposing_witness :
  wf_board start_board /\
  exists flips,
    would_flip start_board 6 4 0 = Ret flips /\
    NoDup flips /\
    forall cell, cell ∈ flips ->
      in_bounds start_board cell.1 cell.2 /\ cell <> (6, 4) /\
      exists v, get_cell start_board cell.1 cell.2 = Ret v /\ v <> 0 /\ v <> EMPTY.
Proof.
  assert (Hwf : wf_board start_board) by (split; [reflexivity | repeat constructor]).
  split; [exact Hwf|]. exact (would_flip_distinct_opposing start_board 6 4 0 Hwf).
Defined.

(** ** The effect of a placement *)

Lemma place_cells b row column player :
  wf_board b -> in_bounds b row column ->
  exists flips b',
    would_flip b row column player = Ret flips /\
    place b row column player = Ret b' /\
    wf_board b' /\ rows b' = rows b /\ columns b' = columns b /\
    forall r c,
      in_bounds b r c ->
      get_cell b' r c =
      if decide ((r, c) = (row, column) \/ (r, c) ∈ flips) then Ret player
      else get_cell b r c.
Proof.
  intros Hwf Hb. unfold place.
  destruct (validate_placing_returns b row column player Hwf) as (ok & reason & ->).
  destruct (would_flip_returns b row column player Hwf) as [flips Hflips].
  cbn [bind]. rewrite Hflips. cbn [bind].
  destruct (flip_all_frame player flips b Hwf) as (b1 & -> & Hwf1 & Hr1 & Hc1 & Hget1).
  { now apply (would_flip_in_bounds b row column player). }
  cbn [bind].
  assert (Hb1 : in_bounds b1 row column) by (unfold in_bounds; rewrite Hr1, Hc1; exact Hb).
  destruct (set_cell_lookup b1 row column player Hwf1 Hb1) as (rw & _ & Hset).
  destruct (set_cell_frame b1 row column player _ Hwf1 Hb1 Hset) as (Hwf' & Hr' & Hc' & Hget').
  rewrite Hset. eexists flips, _. split; [reflexivity|]. split; [reflexivity|].
  split; [assumption|]. split; [congruence|]. split; [congruence|].
  intros r c Hrc. rewrite Hget' by (unfold in_bounds; rewrite Hr1, Hc1; exact Hrc).
  rewrite Hget1 by assumption.
  destruct (decide ((r, c) = (row, column))) as [Heq|Hne].
  - rewrite decide_True by now left. reflexivity.
  - destruct (decide ((r, c) ∈ flips)) as [Hin|Hnin].
    + rewrite decide_True by now right. reflexivity.
    + rewrite decide_False by tauto. reflexivity.
Qed.

(** X2: on a well-formed board, [place] at a cell of the grid, legal or not,
    returns a well-formed board of the same shape in which the target and
    every cell listed by [would_flip] belong to [player], and every other cell
    is as before. *)
Theorem place_effect (b : Board) (row column player : Z) :
  wf_board b -> in_bounds b row column ->
  exists flips b',
    would_flip b row column player = Ret flips /\
    place b row column player = Ret b' /\
    wf_board b' /\ rows b' = rows b /\ columns b' = columns b /\
    get_cell b' row column = Ret player /\
    (forall cell, cell ∈ flips -> get_cell b' cell.1 cell.2 = Ret player) /\
    (forall r c, in_bounds b r c -> (r, c) <> (row, column) -> (r, c) ∉ flips ->
                 get_cell b' r c = get_cell b r c).
Proof.
  intros Hwf Hb.
  destruct (place_cells b row column player Hwf Hb)
    as (flips & b' & Hflips & Hplace & Hwf' & Hr & Hc & Hget).
  exists flips, b'. repeat (split; [assumption|]). split; [|split].
  - rewrite Hget by assumption. rewrite decide_True by now left. reflexivity.
  - intros [r c] Hin. simpl.
    rewrite Hget by now apply (would_flip_in_bounds b row column player flips Hflips (r, c)).
    rewrite decide_True by now right. reflexivity.
  - intros r c Hrc Hne Hnin. rewrite Hget by assumption.
    rewrite decide_False by tauto. reflexivity.
Qed.

Lemma place_effect_witness :
  (wf_board start_board /\ in_bounds start_board 6 4) /\
  exists flips b',
    would_flip start_board 6 4 0 = Ret flips /\
    place start_board 6 4 0 = Ret b' /\
    wf_board b' /\ rows b' = rows start_board /\ columns b' = columns start_board /\
    get_cell b' 6 4 = Ret 0 /\
    (forall cell, cell ∈ flips -> get_cell b' cell.1 cell.2 = Ret 0) /\
    (forall r c, in_bounds start_board r c -> (r, c) <> (6, 4) -> (r, c) ∉ flips ->
                 get_cell b' r c = get_cell start_board r c).
Proof.
  assert (Hwf : wf_board start_board) by (split; [reflexivity | repeat constructor]).
  assert (Hb : in_bounds start_board 6 4) by (unfold in_bounds; simpl; lia).
  split; [auto|]. exact (place_effect start_board 6 4 0 Hwf Hb).
Defined.

(** X3: once [place] has put a disc of a player on a cell of the grid,
    [validate_placing] rejects that cell for every player with the reason
    "Square taken.". *)
Theorem place_then_square_taken (b : Board) (row column player : Z) :
  wf_board b -> in_bounds b row column -> player <> EMPTY ->
  exists b',
    place b row column player = Ret b' /\
    forall other,
      validate_placing b' row column other = Ret (false, "Square taken."%string).
Proof.
  intros Hwf Hb Hplayer.
  destruct (place_cells b row column player Hwf Hb)
    as (flips & b' & _ & Hplace & Hwf' & Hr & Hc & Hget).
  exists b'. split; [assumption|]. intros other. unfold validate_placing.
  assert (out_of_bounds b' row column = false) as ->
    by (apply out_of_bounds_false; unfold in_bounds; rewrite Hr, Hc; exact Hb).
  rewrite Hget by assumption. rewrite decide_True by now left. cbn [bind].
  assert ((player =? EMPTY) = false) as -> by lia. reflexivity.
Qed.

Lemma place_then_square_taken_witness :
  (wf_board start_board /\ in_bounds start_board 6 4 /\ 0 <> EMPTY) /\
  exists b',
    place start_board 6 4 0 = Ret b' /\
    forall other,
      validate_placing b' 6 4 other = Ret (false, "Square taken."%string).
Proof.
  assert (Hwf : wf_board start_board) by (split; [reflexivity | repeat constructor]).
  assert (Hb : in_bounds start_board 6 4) by (unfold in_bounds; simpl; lia).
  assert (Hp : 0 <> EMPTY) by (unfold EMPTY; lia).
  split; [auto|]. exact (place_then_square_taken start_board 6 4 0 Hwf Hb Hp).
Defined.

(** ** The starting position *)

Lemma set_cells_flip_all targets v : forall b, set_cells b targets v = flip_all b targets v.
Proof.
  induction targets as [|[r c] rest IH]; intros b; simpl; [reflexivity|].
  destruct (set_cell b r c v); simpl; auto.
Qed.

(** X1: on a well-formed board of at least 6 rows and 6 columns,
    [setup_three_players] succeeds, keeps the shape, gives each of the players
    0, 1, 2 the three seed cells the source lists for it, and leaves every
    other cell as it was. *)
Theorem setup_three_players_effect (b : Board) :
  wf_board b -> 6 <= rows b -> 6 <= columns b ->
  exists b',
    setup_three_players b = Ret b' /\
    wf_board b' /\ rows b' = rows b /\ columns b' = columns b /\
    forall r c,
      in_bounds b r c ->
      get_cell b' r c =
      if decide ((r, c) ∈ [(3, 3); (3, 5); (4, 4)]) then Ret 0
      else if decide ((r, c) ∈ [(3, 4); (5, 3); (5, 5)]) then Ret 1
      else if decide ((r, c) ∈ [(4, 3); (4, 5); (5, 4)]) then Ret 2
      else get_cell b r c.
Proof.
  intros Hwf Hrows Hcols. unfold setup_three_players.
  rewrite set_cells_flip_all.
  assert (Hseed : forall b0 (seeds : list (Z * Z)),
            rows b0 = rows b -> columns b0 = columns b ->
            Forall (fun cell => 0 <= cell.1 <= 5 /\ 0 <= cell.2 <= 5) seeds ->
            forall cell, cell ∈ seeds -> in_bounds b0 cell.1 cell.2).
  { intros b0 seeds Hr Hc Hall cell Hin.
    destruct (proj1 (Forall_forall _ _) Hall cell Hin). unfold in_bounds. lia. }
  destruct (flip_all_frame 0 [(3, 3); (3, 5); (4, 4)] b Hwf)
    as (b0 & -> & Hwf0 & Hr0 & Hc0 & Hget0).
  { apply Hseed; auto. repeat constructor; simpl; lia. }
  cbn [bind]. rewrite set_cells_flip_all.
  destruct (flip_all_frame 1 [(3, 4); (5, 3); (5, 5)] b0 Hwf0)
    as (b1 & -> & Hwf1 & Hr1 & Hc1 & Hget1).
  { apply Hseed; auto. repeat constructor; simpl; lia. }
  cbn [bind]. rewrite set_cells_flip_all.
  destruct (flip_all_frame 2 [(4, 3); (4, 5); (5, 4)] b1 Hwf1)
    as (b2 & -> & Hwf2 & Hr2 & Hc2 & Hget2).
  { apply Hseed; try congruence. repeat constructor; simpl; lia. }
  exists b2. split; [reflexivity|]. split; [assumption|].
  split; [congruence|]. split; [congruence|].
  intros r c Hb.
  assert (Hb0 : in_bounds b0 r c) by (unfold in_bounds; rewrite Hr0, Hc0; exact Hb).
  assert (Hb1 : in_bounds b1 r c) by (unfold in_bounds; rewrite Hr1, Hc1; exact Hb0).
  rewrite Hget2, Hget1, Hget0 by assumption.
  repeat case_decide; try reflexivity; exfalso;
    rewrite !elem_of_cons, !elem_of_nil in *; intuition congruence.
Qed.

Lemma setup_three_players_effect_witness :
  (wf_board Board_init /\ 6 <= rows Board_init /\ 6 <= columns Board_init) /\
  exists b',
    setup_three_players Board_init = Ret b' /\
    wf_board b' /\ rows b' = rows Board_init /\ columns b' = columns Board_init /\
    forall r c,
      in_bounds Board_init r c ->
      get_cell b' r c =
      if decide ((r, c) ∈ [(3, 3); (3, 5); (4, 4)]) then Ret 0
      else if decide ((r, c) ∈ [(3, 4); (5, 3); (5, 5)]) then Ret 1
      else if decide ((r, c) ∈ [(4, 3); (4, 5); (5, 4)]) then Ret 2
      else get_cell Board_init r c.
Proof.
  assert (Hwf : wf_board Board_init) by (split; [reflexivity | repeat constructor]).
  assert (Hr : 6 <= rows Board_init) by (simpl; lia).
  assert (Hc : 6 <= columns Board_init) by (simpl; lia).
  split; [auto|]. exact (setup_three_players_effect Board_init Hwf Hr Hc).
Defined.

(** ** The reasons of the legality check *)

(** X4: on a well-formed board, the answer of [validate_placing] names the
    first check that fails, in the order bounds, occupancy, adjacency,
    capture; only a move passing all four is accepted, with an empty reason. *)
Theorem validate_placing_reasons (b : Board) (row column player : Z) :
  wf_board b ->
  (~ in_bounds b row column ->
   validate_placing b row column player =
   Ret (false, "Placement out of bounds."%string)) /\
  (in_bounds b row column ->
   (forall v, get_cell b row column = Ret v -> v <> EMPTY ->
      validate_placing b row column player = Ret (false, "Square taken."%string)) /\
   (get_cell b row column = Ret EMPTY ->
    (~ Spec.adjacent_to_disc b row column ->
       validate_placing b row column player =
       Ret (false, "New disc must be adjacent to some existing one."%string)) /\
    (Spec.adjacent_to_disc b row column ->
       (would_flip b row column player = Ret [] ->
          validate_placing b row column player =
          Ret (false, "Move won't flip any disks."%string)) /\
       (forall flips, would_flip b row column player = Ret flips -> flips <> [] ->
          validate_placing b row column player = Ret (true, EmptyString))))).
Proof.
  intros Hwf. unfold validate_placing. split.
  { intros Hb. apply out_of_bounds_true in Hb. now rewrite Hb. }
  intros Hb. assert (out_of_bounds b row column = false) as ->
    by now apply out_of_bounds_false.
  split.
  { intros v -> Hv. cbn [bind]. assert ((v =? EMPTY) = false) as -> by lia.
    reflexivity. }
  intros ->. cbn [bind]. rewrite Z.eqb_refl. cbn [negb].
  destruct (adjacency_check b row column Hwf) as (adj & -> & Hadj). cbn [bind].
  split.
  { intros Hnot. destruct adj; [|reflexivity]. contradiction Hnot. now apply Hadj. }
  intros Hyes. apply Hadj in Hyes as ->. cbn [negb]. split.
  - intros ->. reflexivity.
  - intros flips -> Hne. cbn [bind]. destruct flips; [contradiction|reflexivity].
Qed.

Lemma validate_placing_reasons_witness :
  wf_board start_board /\
  (~ in_bounds start_board 6 4 ->
   validate_placing start_board 6 4 0 =
   Ret (false, "Placement out of bounds."%string)) /\
  (in_bounds start_board 6 4 ->
   (forall v, get_cell start_board 6 4 = Ret v -> v <> EMPTY ->
      validate_placing start_board 6 4 0 = Ret (false, "Square taken."%string)) /\
   (get_cell start_board 6 4 = Ret EMPTY ->
    (~ Spec.adjacent_to_disc start_board 6 4 ->
       validate_placing start_board 6 4 0 =
       Ret (false, "New disc must be adjacent to some existing one."%string)) /\
    (Spec.adjacent_to_disc start_board 6 4 ->
       (would_flip start_board 6 4 0 = Ret [] ->
          validate_placing start_board 6 4 0 =
          Ret (false, "Move won't flip any disks."%string)) /\
       (forall flips, would_flip start_board 6 4 0 = Ret flips -> flips <> [] ->
          validate_placing start_board 6 4 0 = Ret (true, EmptyString))))).
Proof.
  assert (Hwf : wf_board start_board) by (split; [reflexivity | repeat constructor]).
  split; [exact Hwf|]. exact (validate_placing_reasons start_board 6 4 0 Hwf).
Defined.

(** ** Boards without a legal move *)

Lemma is_legal_inv b player row column :
  wf_board b -> is_legal b player (row, column) = true ->
  in_bounds b row column /\ get_cell b row column = Ret EMPTY /\
  Spec.adjacent_to_disc b row column /\
  exists flips, would_flip b row column player = Ret flips /\ flips <> [].
Proof.
  intros Hwf. unfold is_legal, validate_placing. cbn [fst snd].
  destruct (out_of_bounds b row column) eqn:Hb; [discriminate|].
  apply out_of_bounds_false in Hb.
  destruct (get_cell_in_bounds b row column Hwf Hb) as [v Hv]. rewrite Hv. cbn [bind].
  destruct (v =? EMPTY) eqn:Hempty; [|discriminate]. apply Z.eqb_eq in Hempty as ->.
  destruct (adjacency_check b row column Hwf) as (adj & -> & Hadj). cbn [bind negb].
  destruct adj; [|discriminate]. cbn [negb].
  destruct (would_flip_returns b row column player Hwf) as [flips ->]. cbn [bind].
  destruct flips as [|cell flips]; [discriminate|]. intros _.
  split; [exact Hb|]. split; [reflexivity|]. split; [now apply Hadj|].
  eexists. split; [reflexivity | discriminate].
Qed.

Lemma no_legal_cell b player :
  wf_board b ->
  (forall row column, is_legal b player (row, column) = false) ->
  valid_moves b player = Ret [] /\ has_valid_move b player = Ret false.
Proof.
  intros Hwf Hnone.
  assert (Hfilter : filter (fun cell => is_legal b player cell) (Spec.cells b) = []).
  { apply elem_of_nil_inv. intros [r c] [Hl _]%list_elem_of_filter.
    rewrite Hnone in Hl. exact Hl. }
  unfold valid_moves, has_valid_move.
  rewrite valid_moves_rows_spec, has_valid_move_rows_spec by assumption.
  rewrite existsb_filter. fold (Spec.cells b). now rewrite Hfilter.
Qed.

(** X6: on a well-formed board with no disc at all, and on one with no empty
    cell, no player has a legal move: [valid_moves] is empty and
    [has_valid_move] is false. *)
Theorem no_moves_on_empty_or_full_board (b : Board) (player : Z) :
  wf_board b ->
  (forall r c, in_bounds b r c -> get_cell b r c = Ret EMPTY) \/
  (forall r c, in_bounds b r c -> get_cell b r c <> Ret EMPTY) ->
  valid_moves b player = Ret [] /\ has_valid_move b player = Ret false.
Proof.
  intros Hwf Hcase. apply no_legal_cell; [assumption|]. intros row column.
  destruct (is_legal b player (row, column)) eqn:Hlegal; [exfalso|reflexivity].
  apply is_legal_inv in Hlegal as (Hb & Hempty & Hadj & _); [|assumption].
  destruct Hcase as [Hall|Hfull].
  - destruct Hadj as (dy & dx & v & _ & [Hin Hv] & Hne). simpl in Hin, Hv.
    rewrite (Hall _ _ Hin) in Hv. congruence.
  - now apply (Hfull row column).
Qed.

Lemma no_moves_on_empty_or_full_board_witness :
  (wf_board Board_init /\
   ((forall r c, in_bounds Board_init r c -> get_cell Board_init r c = Ret EMPTY) \/
    (forall r c, in_bounds Board_init r c -> get_cell Board_init r c <> Ret EMPTY))) /\
  valid_moves Board_init 1 = Ret [] /\ has_valid_move Board_init 1 = Ret false.
Proof.
  assert (Hwf : wf_board Board_init) by (split; [reflexivity | repeat constructor]).
  assert (Hall : forall r c, in_bounds Board_init r c -> get_cell Board_init r c = Ret EMPTY).
  { intros r c [Hr Hc]. simpl in Hr, Hc.
    assert (r = 0 \/ r = 1 \/ r = 2 \/ r = 3 \/ r = 4 \/ r = 5 \/ r = 6 \/ r = 7 \/ r = 8)
      as Hrv by lia.
    assert (c = 0 \/ c = 1 \/ c = 2 \/ c = 3 \/ c = 4 \/ c = 5 \/ c = 6 \/ c = 7 \/ c = 8)
      as Hcv by lia.
    repeat (destruct Hrv as [->|Hrv]); try subst r;
      repeat (destruct Hcv as [->|Hcv]); try subst c; reflexivity. }
  split; [split; [exact Hwf | left; exact Hall]|].
  exact (no_moves_on_empty_or_full_board Board_init 1 Hwf (or_introl Hall)).
Defined.

(** X7: a player with no disc on a well-formed board captures nothing
    anywhere and has no legal move. *)
Theorem no_moves_without_disc (b : Board) (player : Z) :
  wf_board b ->
  (forall r c, in_bounds b r c -> get_cell b r c <> Ret player) ->
  (forall row column, would_flip b row column player = Ret []) /\
  valid_moves b player = Ret [] /\ has_valid_move b player = Ret false.
Proof.
  intros Hwf Hnone.
  assert (Hflip : forall row column, would_flip b row column player = Ret []).
  { intros row column.
    destruct (would_flip_returns b row column player Hwf) as [flips Hflips].
    rewrite Hflips. f_equal. apply elem_of_nil_inv. intros cell Hin.
    apply (would_flip_captures _ _ _ _ _ Hflips) in Hin
      as (dy & dx & _ & n & k & _ & _ & _ & [Hb Hown]).
    now apply (Hnone _ _ Hb). }
  split; [exact Hflip|]. apply no_legal_cell; [assumption|]. intros row column.
  destruct (is_legal b player (row, column)) eqn:Hlegal; [exfalso|reflexivity].
  apply is_legal_inv in Hlegal as (_ & _ & _ & flips & Hflips & Hne); [|assumption].
  rewrite Hflip in Hflips. congruence.
Qed.

Lemma no_moves_without_disc_witness :
  (wf_board pass_board /\
   forall r c, in_bounds pass_board r c -> get_cell pass_board r c <> Ret 0) /\
  (forall row column, would_flip pass_board row column 0 = Ret []) /\
  valid_moves pass_board 0 = Ret [] /\ has_valid_move pass_board 0 = Ret false.
Proof.
  assert (Hwf : wf_board pass_board) by (split; [reflexivity | repeat constructor]).
  assert (Hnone : forall r c, in_bounds pass_board r c -> get_cell pass_board r c <> Ret 0).
  { intros r c [Hr Hc]. simpl in Hr, Hc.
    assert (r = 0 \/ r = 1 \/ r = 2 \/ r = 3 \/ r = 4 \/ r = 5 \/ r = 6 \/ r = 7 \/ r = 8)
      as Hrv by lia.
    assert (c = 0 \/ c = 1 \/ c = 2 \/ c = 3 \/ c = 4 \/ c = 5 \/ c = 6 \/ c = 7 \/ c = 8)
      as Hcv by lia.
    repeat (destruct Hrv as [->|Hrv]); try subst r;
      repeat (destruct Hcv as [->|Hcv]); try subst c; vm_compute; discriminate. }
  split; [split; [exact Hwf | exact Hnone]|].
  exact (no_moves_without_disc pass_board 0 Hwf Hnone).
Defined.

(** ** Scoring, in general *)

(** X8: on a grid holding only players 0, 1, 2 and [EMPTY], [get_winner]
    returns player [p] exactly when the tally of [p] is strictly above the two
    others, and [None] when no tally is; the tallies are the disc counts of
    players 0 and 1, and for player 2 its disc count plus the number of empty
    cells. *)
Theorem get_winner_strict_maximum (b : Board) :
  Forall (Forall (fun cell => -1 <= cell <= 2)) (board b) ->
  exists w,
    get_winner b = Ret w /\
    forall p,
      w = Some p <->
      0 <= p <= 2 /\ forall q, 0 <= q <= 2 -> q <> p -> tally b q < tally b p.
Proof.
  intros Hcells. rewrite (get_winner_spec b Hcells). cbv zeta.
  eexists. split; [reflexivity|]. intros p.
  assert (H0 : tally b 0 = count_cells b 0) by (unfold tally; simpl; lia).
  assert (H1 : tally b 1 = count_cells b 1) by (unfold tally; simpl; lia).
  assert (H2 : tally b 2 = count_cells b 2 + count_cells b EMPTY)
    by (unfold tally; simpl; lia).
  rewrite <- H0, <- H1, <- H2.
  generalize dependent (tally b). intros t _ _ _.
  assert (Hq : forall P : Z -> Prop,
            (forall q, 0 <= q <= 2 -> P q) <-> P 0 /\ P 1 /\ P 2).
  { intros P. split; [intros H; repeat split; apply H; lia|].
    intros (P0 & P1 & P2) q Hqr.
    assert (q = 0 \/ q = 1 \/ q = 2) as [->|[->| ->]] by lia; assumption. }
  rewrite (Hq (fun q => q <> p -> t q < t p)).
  repeat match goal with
         | |- context [?x <? ?y] => destruct (Z.ltb_spec x y)
         end; cbn [andb]; split;
    try (intros [= <-]; split; [lia|]; repeat split; intros; lia);
    try discriminate;
    intros (Hp & Hp0 & Hp1 & Hp2);
    (assert (p = 0 \/ p = 1 \/ p = 2) as [->|[->| ->]] by lia);
    try reflexivity; exfalso;
    try (specialize (Hp0 ltac:(lia))); try (specialize (Hp1 ltac:(lia)));
    try (specialize (Hp2 ltac:(lia))); lia.
Qed.

Lemma get_winner_strict_maximum_witness :
  Forall (Forall (fun cell => -1 <= cell <= 2)) (board tie_board) /\
  exists w,
    get_winner tie_board = Ret w /\
    forall p,
      w = Some p <->
      0 <= p <= 2 /\
      forall q, 0 <= q <= 2 -> q <> p -> tally tie_board q < tally tie_board p.
Proof.
  assert (H : Forall (Forall (fun cell => -1 <= cell <= 2)) (board tie_board))
    by (unfold tie_board; cbn [board replicate];
        repeat (apply Forall_cons; split); try apply Forall_nil; unfold EMPTY; lia).
  split; [exact H|]. exact (get_winner_strict_maximum tie_board H).
Defined.

Lemma count_row_range cells :
  forall scores,
    length scores = 3%nat ->
    (Forall (fun cell => -3 <= cell <= 2) cells ->
     exists scores', count_row cells scores = Ret scores' /\ length scores' = 3%nat) /\
    (Exists (fun cell => cell < -3 \/ 2 < cell) cells ->
     count_row cells scores = Raise IndexError).
Proof.
  induction cells as [|cell cells IH]; intros scores Hlen.
  { split; [eauto|]. intros H. inversion H. }
  cbn [count_row]. destruct (decide (-3 <= cell <= 2)) as [Hin|Hout].
  - destruct (index_valid (length scores) cell) as [n Hn]; [lia|].
    destruct (getitem_index _ _ _ Hn) as (old & _ & ->). cbn [bind].
    unfold setitem. rewrite Hn. cbn [bind].
    destruct (IH (<[n := old + 1]> scores)) as [Hok Hbad];
      [now rewrite length_insert|].
    split.
    + intros [_ Hrest]%Forall_cons. now apply Hok.
    + intros [Hc|Hrest]%Exists_cons; [lia | now apply Hbad].
  - assert (index (length scores) cell = None) as Hn.
    { unfold index. rewrite Hlen.
      destruct (Z.leb_spec 0 cell), (Z.ltb_spec cell (Z.of_nat 3)),
        (Z.leb_spec (- Z.of_nat 3) cell), (Z.ltb_spec cell 0);
        cbn [andb]; try reflexivity; exfalso; lia. }
    unfold getitem. rewrite Hn. cbn [bind]. split; [|reflexivity].
    intros [Hc _]%Forall_cons. contradiction.
Qed.

Lemma count_rows_range grid :
  forall scores,
    length scores = 3%nat ->
    (Forall (Forall (fun cell => -3 <= cell <= 2)) grid ->
     exists scores', count_rows grid scores = Ret scores' /\ length scores' = 3%nat) /\
    (Exists (Exists (fun cell => cell < -3 \/ 2 < cell)) grid ->
     count_rows grid scores = Raise IndexError).
Proof.
  induction grid as [|row grid IH]; intros scores Hlen.
  { split; [eauto|]. intros H. inversion H. }
  cbn [count_rows].
  destruct (count_row_range row scores Hlen) as [Hok Hbad].
  destruct (decide (Forall (fun cell => -3 <= cell <= 2) row)) as [Hrow|Hrow].
  - destruct (Hok Hrow) as (scores1 & -> & Hlen1). cbn [bind].
    destruct (IH scores1 Hlen1) as [Hok' Hbad']. split.
    + intros [_ Hrest]%Forall_cons. now apply Hok'.
    + intros [Hc|Hrest]%Exists_cons; [|now apply Hbad'].
      exfalso. apply Exists_exists in Hc as (cell & Hin & Hc).
      pose proof (proj1 (Forall_forall _ _) Hrow cell Hin) as Hr.
      cbv beta in Hr. lia.
  - assert (Exists (fun cell => cell < -3 \/ 2 < cell) row) as Hex.
    { apply not_Forall_Exists in Hrow; [|apply _].
      eapply Exists_impl; [exact Hrow|]. intros cell Hc. unfold compose in Hc. lia. }
    rewrite (Hbad Hex). cbn [bind]. split; [|reflexivity].
    intros [Hc _]%Forall_cons. contradiction.
Qed.

(** X9: [get_winner] returns (a player or [None]) when every value of the grid
    lies between -3 and 2, the values a three-element list accepts as index,
    and raises [IndexError] as soon as the grid holds any other value. *)
Theorem get_winner_index_error (b : Board) :
  (Forall (Forall (fun cell => -3 <= cell <= 2)) (board b) ->
   exists w, get_winner b = Ret w) /\
  (Exists (Exists (fun cell => cell < -3 \/ 2 < cell)) (board b) ->
   get_winner b = Raise IndexError).
Proof.
  unfold get_winner.
  destruct (count_rows_range (board b) [0; 0; 0] eq_refl) as [Hok Hbad]. split.
  - intros Hall. destruct (Hok Hall) as (scores & -> & Hlen). cbn [bind].
    destruct scores as [|s0 [|s1 [|s2 [|]]]]; try discriminate.
    change (exists w, (let max_score := list_max s0 [s1; s2] in
                       if (1 <? Z.of_nat (length (filter (fun x => x = max_score)
                                                    [s0; s1; s2])))
                       then Ret None
                       else i <- list_index max_score [s0; s1; s2] ;; Ret (Some i)) =
                      Ret w).
    rewrite (winner_of_scores s0 s1 s2). eauto.
  - intros Hex. now rewrite (Hbad Hex).
Qed.

(** ** What the search keeps *)

Lemma valid_moves_empty_cells b player moves :
  wf_board b -> valid_moves b player = Ret moves ->
  forall cell, cell ∈ moves -> get_cell b cell.1 cell.2 = Ret EMPTY.
Proof.
  intros Hwf Hmoves [r c] Hin. unfold valid_moves in Hmoves.
  rewrite valid_moves_rows_spec in Hmoves by assumption.
  injection Hmoves as <-. simpl in Hin.
  apply list_elem_of_filter in Hin as [Hlegal _].
  apply Is_true_true in Hlegal.
  now apply is_legal_inv in Hlegal as (_ & Hempty & _).
Qed.

Section SearchInvariant.

Variable heuristic : heuristic_t.
Variables (nrows ncols : Z).
Variable Q : Z -> Prop.

#[local] Abbreviation of_shape b :=
  (wf_board b /\ rows b = nrows /\ columns b = ncols).

(** The same cells are empty in [b'] as in [b]. *)
#[local] Abbreviation empties_kept b b' :=
  (forall r c, 0 <= r < nrows -> 0 <= c < ncols ->
               (get_cell b' r c = Ret EMPTY <-> get_cell b r c = Ret EMPTY)).

Hypothesis heuristic_Q : forall b p, of_shape b -> Q (heuristic b p).

(** One round of the expansion loop, seen through the empty cells: the
    placement fills the target, the flips touch discs only, the undo empties
    the target again. *)
Lemma place_undo_empties b row column player b1 b2 b3 :
  of_shape b -> in_bounds b row column ->
  get_cell b row column = Ret EMPTY -> player <> EMPTY ->
  place b row column player = Ret b1 ->
  of_shape b2 -> empties_kept b1 b2 ->
  set_cell b2 row column EMPTY = Ret b3 ->
  of_shape b3 /\ empties_kept b b3.
Proof.
  intros (Hwf & Hr & Hc) Hb Hempty Hplayer Hplace (Hwf2 & Hr2 & Hc2) Hkept Hset.
  destruct (place_cells b row column player Hwf Hb)
    as (flips & b1' & Hflips & Hplace' & _ & _ & _ & Hget1).
  assert (b1' = b1) as -> by congruence.
  assert (Hb2 : in_bounds b2 row column)
    by (unfold in_bounds; rewrite Hr2, Hc2, <- Hr, <- Hc; exact Hb).
  destruct (set_cell_frame b2 row column EMPTY b3 Hwf2 Hb2 Hset)
    as (Hwf3 & Hr3 & Hc3 & Hget3).
  split; [split; [assumption | split; congruence]|].
  intros r c Hrr Hcc.
  rewrite Hget3 by (unfold in_bounds; rewrite Hr2, Hc2; auto).
  destruct (decide ((r, c) = (row, column))) as [[= -> ->]|Hne]; [tauto|].
  rewrite (Hkept r c Hrr Hcc).
  rewrite Hget1 by (unfold in_bounds; rewrite Hr, Hc; auto).
  destruct (decide ((r, c) = (row, column) \/ (r, c) ∈ flips)) as [[Heq|Hin]|Hnot];
    [contradiction | | reflexivity].
  destruct (would_flip_members b row column player flips (r, c) Hflips Hin)
    as (_ & _ & v & Hv & _ & Hv'). simpl in Hv. rewrite Hv.
  split; intros [= E]; congruence.
Qed.

Lemma expand_invariant (K : Prop) recurse maximizing_player current_player moves :
  (forall b, of_shape b ->
     exists v b', recurse b = Ret (VNum v, b') /\ of_shape b' /\ Q v /\
                  (K -> empties_kept b b')) ->
  forall max_eval b,
    of_shape b ->
    (forall cell, cell ∈ moves -> in_bounds b cell.1 cell.2) ->
    (max_eval = VNone \/ exists a, max_eval = VNum a /\ Q a) ->
    exists res b',
      expand recurse maximizing_player current_player moves max_eval b = Ret (res, b') /\
      of_shape b' /\
      (moves <> [] \/ max_eval <> VNone -> exists v, res = VNum v /\ Q v) /\
      (K -> current_player <> EMPTY ->
       (forall cell, cell ∈ moves -> get_cell b cell.1 cell.2 = Ret EMPTY) ->
       empties_kept b b').
Proof.
  intros Hrec. induction moves as [|[move_row move_col] moves IH];
    intros max_eval b Hb Hmoves Hmax; cbn [expand].
  - exists max_eval, b. split; [reflexivity|]. split; [assumption|]. split.
    + intros [H|H]; [contradiction|]. destruct Hmax as [->|Hmax]; [contradiction | exact Hmax].
    + intros _ _ _ r c _ _. reflexivity.
  - pose proof Hb as (Hwf & Hr & Hc).
    assert (Htarget : in_bounds b move_row move_col) by (apply (Hmoves (move_row, move_col)); left).
    destruct (place_cells b move_row move_col current_player Hwf Htarget)
      as (flips & b1 & _ & Hplace & Hwf1 & Hr1 & Hc1 & _).
    rewrite Hplace. cbn [bind].
    destruct (Hrec b1) as (v & b2 & -> & Hb2 & Hv & Hkept12);
      [split; [assumption | split; congruence]|].
    cbn [bind fst snd]. pose proof Hb2 as (Hwf2 & Hr2 & Hc2).
    assert (Htarget2 : in_bounds b2 move_row move_col)
      by (unfold in_bounds; rewrite Hr2, Hc2, <- Hr, <- Hc; exact Htarget).
    destruct (set_cell_lookup b2 move_row move_col EMPTY Hwf2 Htarget2) as (rw & _ & Hset).
    set (b3 := with_board b2 _) in Hset.
    destruct (set_cell_frame b2 move_row move_col EMPTY b3 Hwf2 Htarget2 Hset)
      as (Hwf3 & Hr3 & Hc3 & _).
    rewrite Hset. cbn [bind].
    assert (exists w, match max_eval with
                      | VNone => Ret (VNum v)
                      | VNum _ => aggregate (current_player =? maximizing_player)
                                    max_eval (VNum v)
                      end = Ret (VNum w) /\ Q w) as (w & -> & Hw).
    { destruct Hmax as [->|(a & -> & Ha)]; [eauto|]. cbn [aggregate].
      eexists. split; [reflexivity|].
      destruct (current_player =? maximizing_player).
      - destruct (Z.max_spec a v) as [[_ ->]|[_ ->]]; assumption.
      - destruct (Z.min_spec a v) as [[_ ->]|[_ ->]]; assumption. }
    cbn [bind].
    destruct (IH (VNum w) b3) as (res & b' & -> & Hb' & Hres & Hkept3).
    + split; [assumption | split; congruence].
    + intros cell Hcell. unfold in_bounds.
      rewrite Hr3, Hc3, Hr2, Hc2, <- Hr, <- Hc. apply Hmoves. now right.
    + right. eauto.
    + exists res, b'. split; [reflexivity|]. split; [assumption|]. split.
      * intros _. apply Hres. right. discriminate.
      * intros HK Hplayer Hempty.
        destruct (place_undo_empties b move_row move_col current_player b1 b2 b3
                    Hb Htarget (Hempty (move_row, move_col) ltac:(left)) Hplayer
                    Hplace Hb2 (Hkept12 HK) Hset) as [_ Hkept03].
        intros r c Hrr Hcc. rewrite <- (Hkept03 r c Hrr Hcc).
        apply Hkept3; auto.
        intros [r' c'] Hcell. simpl.
        assert (Hin : in_bounds b r' c') by (apply (Hmoves (r', c')); now right).
        destruct Hin as [Hin1 Hin2]. rewrite Hr in Hin1. rewrite Hc in Hin2.
        apply (Hkept03 r' c' Hin1 Hin2). apply (Hempty (r', c')). now right.
Qed.

Lemma minimax_invariant fuel :
  forall b depth maximizing_player current_player num_players turns_passed,
    of_shape b -> num_players <> 0 -> 0 <= depth -> (Z.to_nat depth < fuel)%nat ->
    exists v b',
      minimax heuristic fuel b depth maximizing_player current_player num_players
        turns_passed = Ret (VNum v, b') /\
      of_shape b' /\ Q v /\
      (0 < num_players -> current_player <> EMPTY -> empties_kept b b').
Proof.
  induction fuel as [|fuel IH];
    intros b depth maximizing_player current_player num_players turns_passed
      Hb Hplayers Hdepth Hfuel; [lia|].
  cbn [minimax].
  destruct ((depth =? 0) || (turns_passed =? num_players)) eqn:Hbase.
  { exists (heuristic b current_player), b. split; [reflexivity|].
    split; [assumption|]. split; [now apply heuristic_Q|].
    intros _ _ r c _ _. reflexivity. }
  pose proof Hb as (Hwf & Hr & Hc).
  destruct (returns (valid_moves b current_player)) as [moves Hmoves];
    [apply valid_moves_terminates | |].
  { unfold valid_moves. rewrite valid_moves_rows_spec by assumption.
    apply Ret_no_raise. }
  rewrite Hmoves. cbn [bind]. unfold mod_.
  assert ((num_players =? 0) = false) as -> by lia. cbn [bind].
  assert (Hnext : 0 < num_players -> (current_player + 1) mod num_players <> EMPTY).
  { intros Hpos. pose proof (Z.mod_pos_bound (current_player + 1) num_players Hpos).
    unfold EMPTY. lia. }
  destruct moves as [|m moves].
  - destruct (IH b (depth - 1) maximizing_player
                ((current_player + 1) mod num_players) num_players (turns_passed + 1))
      as (v & b' & -> & _ & Hv & _); [assumption | assumption | lia | lia |].
    cbn [bind fst]. exists v, b. split; [reflexivity|]. split; [assumption|].
    split; [assumption|]. intros _ _ r c _ _. reflexivity.
  - destruct (expand_invariant (0 < num_players)
                (fun b' => minimax heuristic fuel b' (depth - 1) maximizing_player
                             ((current_player + 1) mod num_players) num_players 0)
                maximizing_player current_player (m :: moves))
      with (max_eval := VNone) (b := b) as (res & b' & Hexp & Hb' & Hres & Hkept).
    + intros b0 Hb0.
      destruct (IH b0 (depth - 1) maximizing_player
                  ((current_player + 1) mod num_players) num_players 0)
        as (v & b' & Hrun & Hb' & Hv & Hkept); [assumption | assumption | lia | lia |].
      exists v, b'. split; [assumption|]. split; [assumption|]. split; [assumption|].
      intros Hpos. apply Hkept; auto.
    + assumption.
    + now apply (valid_moves_in_bounds b current_player).
    + now left.
    + rewrite Hexp. destruct Hres as (v & -> & Hv); [left; discriminate|].
      exists v, b'. split; [reflexivity|]. split; [assumption|]. split; [assumption|].
      intros Hpos Hplayer. apply Hkept; auto.
      now apply (valid_moves_empty_cells b current_player).
Qed.

End SearchInvariant.

(** X10: on a well-formed board, with a non-zero player count and a depth
    from 0 to 500 (at most 501 nested calls, within the interpreter's default
    recursion limit of 1000), [minimax] raises nothing: it returns a number,
    and it leaves a well-formed board of the same shape. *)
Theorem minimax_never_raises (heuristic : heuristic_t) (fuel : nat) (b : Board)
    (depth maximizing_player current_player num_players turns_passed : Z) :
  wf_board b -> num_players <> 0 -> 0 <= depth <= 500 ->
  (Z.to_nat depth < fuel)%nat ->
  exists v b',
    minimax heuristic fuel b depth maximizing_player current_player num_players
      turns_passed = Ret (VNum v, b') /\
    wf_board b' /\ rows b' = rows b /\ columns b' = columns b.
Proof.
  intros Hwf Hplayers [Hdepth _] Hfuel.
  destruct (minimax_returns heuristic (rows b) (columns b) fuel b depth
              maximizing_player current_player num_players turns_passed)
    as (v & b' & Hrun & Hshape); auto.
  exists v, b'. auto.
Qed.

Lemma minimax_never_raises_witness :
  (wf_board start_board /\ 3 <> 0 /\ 0 <= 2 <= 500 /\ (Z.to_nat 2 < 3)%nat) /\
  exists v b',
    minimax disc_count 3 start_board 2 0 0 3 0 = Ret (VNum v, b') /\
    wf_board b' /\ rows b' = rows start_board /\ columns b' = columns start_board.
Proof.
  assert (Hwf : wf_board start_board) by (split; [reflexivity | repeat constructor]).
  assert (Hn : 3 <> 0) by lia.
  assert (Hd : 0 <= 2 <= 500) by lia.
  assert (Hf : (Z.to_nat 2 < 3)%nat) by (simpl; lia).
  split; [auto|].
  exact (minimax_never_raises disc_count 3 start_board 2 0 0 3 0 Hwf Hn Hd Hf).
Defined.

(** X11: with a player count of 0, a non-zero depth and a non-zero pass
    counter, [minimax] on a well-formed board raises [ZeroDivisionError]: the
    base case does not apply and the next player is computed modulo 0. *)
Theorem minimax_zero_players (heuristic : heuristic_t) (fuel : nat) (b : Board)
    (depth maximizing_player current_player turns_passed : Z) :
  wf_board b -> depth <> 0 -> turns_passed <> 0 ->
  minimax heuristic (S fuel) b depth maximizing_player current_player 0 turns_passed =
  Raise ZeroDivisionError.
Proof.
  intros Hwf Hdepth Hpass. cbn [minimax].
  assert ((depth =? 0) || (turns_passed =? 0) = false) as -> by lia.
  unfold valid_moves. rewrite valid_moves_rows_spec by assumption. reflexivity.
Qed.

Lemma minimax_zero_players_witness :
  (wf_board start_board /\ 2 <> 0 /\ 1 <> 0) /\
  minimax disc_count 1 start_board 2 0 0 0 1 = Raise ZeroDivisionError.
Proof.
  assert (Hwf : wf_board start_board) by (split; [reflexivity | repeat constructor]).
  assert (Hd : 2 <> 0) by lia.
  assert (Hp : 1 <> 0) by lia.
  split; [auto|]. exact (minimax_zero_players disc_count 0 start_board 2 0 0 1 Hwf Hd Hp).
Defined.

(** X12: with a positive player count and a current player other than
    [EMPTY], a search of non-negative depth on a well-formed board returns a
    board in which exactly the cells that were empty before are empty: the
    undo restores every placed cell, and captures never touch an empty one. *)
Theorem minimax_keeps_empty_cells (heuristic : heuristic_t) (fuel : nat) (b : Board)
    (depth maximizing_player current_player num_players turns_passed : Z) :
  wf_board b -> 0 < num_players -> current_player <> EMPTY ->
  0 <= depth -> (Z.to_nat depth < fuel)%nat ->
  exists v b',
    minimax heuristic fuel b depth maximizing_player current_player num_players
      turns_passed = Ret (VNum v, b') /\
    forall r c,
      in_bounds b r c ->
      (get_cell b' r c = Ret EMPTY <-> get_cell b r c = Ret EMPTY).
Proof.
  intros Hwf Hplayers Hcurrent Hdepth Hfuel.
  destruct (minimax_invariant heuristic (rows b) (columns b) (fun _ => True)
              (fun _ _ _ => I) fuel b depth maximizing_player current_player num_players
              turns_passed)
    as (v & b' & Hrun & _ & _ & Hkept); auto; [lia|].
  exists v, b'. split; [assumption|]. intros r c [Hr Hc]. now apply Hkept.
Qed.

Lemma minimax_keeps_empty_cells_witness :
  (wf_board start_board /\ 0 < 3 /\ 0 <> EMPTY /\ 0 <= 2 /\ (Z.to_nat 2 < 3)%nat) /\
  exists v b',
    minimax disc_count 3 start_board 2 0 0 3 0 = Ret (VNum v, b') /\
    forall r c,
      in_bounds start_board r c ->
      (get_cell b' r c = Ret EMPTY <-> get_cell start_board r c = Ret EMPTY).
Proof.
  assert (Hwf : wf_board start_board) by (split; [reflexivity | repeat constructor]).
  assert (Hn : 0 < 3) by lia.
  assert (Hp : 0 <> EMPTY) by (unfold EMPTY; lia).
  assert (Hd : 0 <= 2) by lia.
  assert (Hf : (Z.to_nat 2 < 3)%nat) by (simpl; lia).
  split; [auto 6|].
  exact (minimax_keeps_empty_cells disc_count 3 start_board 2 0 0 3 0 Hwf Hn Hp Hd Hf).
Defined.

(** X13: the number [minimax] returns is a value of the heuristic: on a
    well-formed board, with a non-zero player count and a non-negative depth,
    it equals the heuristic at some well-formed board of the same shape and
    some player; so it obeys every bound the heuristic obeys. *)
Theorem minimax_value_is_heuristic_value (heuristic : heuristic_t) (fuel : nat)
    (b : Board)
    (depth maximizing_player current_player num_players turns_passed : Z) :
  wf_board b -> num_players <> 0 -> 0 <= depth -> (Z.to_nat depth < fuel)%nat ->
  exists v b',
    minimax heuristic fuel b depth maximizing_player current_player num_players
      turns_passed = Ret (VNum v, b') /\
    exists leaf perspective,
      (wf_board leaf /\ rows leaf = rows b /\ columns leaf = columns b) /\
      v = heuristic leaf perspective.
Proof.
  intros Hwf Hplayers Hdepth Hfuel.
  destruct (minimax_invariant heuristic (rows b) (columns b)
              (fun v => exists leaf perspective,
                          (wf_board leaf /\ rows leaf = rows b /\
                           columns leaf = columns b) /\
                          v = heuristic leaf perspective)
              (fun leaf p Hleaf => ex_intro _ leaf (ex_intro _ p (conj Hleaf eq_refl)))
              fuel b depth maximizing_player current_player num_players
              turns_passed)
    as (v & b' & Hrun & _ & Hv & _); auto.
  exists v, b'. auto.
Qed.

Lemma minimax_value_is_heuristic_value_witness :
  (wf_board start_board /\ 3 <> 0 /\ 0 <= 2 /\ (Z.to_nat 2 < 3)%nat) /\
  exists v b',
    minimax disc_count 3 start_board 2 0 0 3 0 = Ret (VNum v, b') /\
    exists leaf perspective,
      (wf_board leaf /\ rows leaf = rows start_board /\
       columns leaf = columns start_board) /\
      v = disc_count leaf perspective.
Proof.
  assert (Hwf : wf_board start_board) by (split; [reflexivity | repeat constructor]).
  assert (Hn : 3 <> 0) by lia.
  assert (Hd : 0 <= 2) by lia.
  assert (Hf : (Z.to_nat 2 < 3)%nat) by (simpl; lia).
  split; [auto|].
  exact (minimax_value_is_heuristic_value disc_count 3 start_board 2 0 0 3 0
           Hwf Hn Hd Hf).
Defined.

(** X14: when no player of the rotation has a legal move, [minimax] only
    passes: it returns the board untouched and the heuristic of that board,
    asked for the player reached after as many passes as the depth and the
    pass counter allow, the smaller of [depth] and [num_players - turns_passed].
    This is stated for at most 500 such passes (at most 501 nested calls,
    within the interpreter's default recursion limit of 1000). *)
Theorem minimax_game_over (heuristic : heuristic_t) (fuel : nat) (b : Board)
    (depth maximizing_player current_player num_players turns_passed : Z) :
  (forall p, 0 <= p < num_players -> valid_moves b p = Ret []) ->
  0 <= current_player < num_players ->
  0 <= turns_passed <= num_players ->
  0 <= depth ->
  Z.min depth (num_players - turns_passed) <= 500 ->
  (Z.to_nat (Z.min depth (num_players - turns_passed)) < fuel)%nat ->
  minimax heuristic fuel b depth maximizing_player current_player num_players
    turns_passed =
  Ret (VNum (heuristic b ((current_player + Z.min depth (num_players - turns_passed))
                          mod num_players)), b).
Proof.
  intros Hstuck. revert depth current_player turns_passed.
  induction fuel as [|fuel IH]; intros depth current_player turns_passed
    Hcurrent Hpassed Hdepth Hbound Hfuel; [lia|].
  cbn [minimax].
  destruct ((depth =? 0) || (turns_passed =? num_players)) eqn:Hbase.
  { replace (Z.min depth (num_players - turns_passed)) with 0 by lia.
    rewrite Z.add_0_r, Z.mod_small by lia. reflexivity. }
  rewrite (Hstuck current_player Hcurrent). cbn [bind]. unfold mod_.
  assert ((num_players =? 0) = false) as -> by lia. cbn [bind].
  rewrite IH; [| apply Z.mod_pos_bound; lia | lia | lia | lia | lia].
  cbn [bind fst]. rewrite Zplus_mod_idemp_l.
  replace (current_player + 1 + Z.min (depth - 1) (num_players - (turns_passed + 1)))
    with (current_player + Z.min depth (num_players - turns_passed)) by lia.
  reflexivity.
Qed.

Lemma minimax_game_over_witness :
  ((forall p, 0 <= p < 3 -> valid_moves Board_init p = Ret []) /\
   0 <= 1 < 3 /\ 0 <= 0 <= 3 /\ 0 <= 5 /\ Z.min 5 (3 - 0) <= 500 /\
   (Z.to_nat (Z.min 5 (3 - 0)) < 4)%nat) /\
  minimax disc_count 4 Board_init 5 0 1 3 0 =
  Ret (VNum (disc_count Board_init ((1 + Z.min 5 (3 - 0)) mod 3)), Board_init).
Proof.
  assert (Hstuck : forall p, 0 <= p < 3 -> valid_moves Board_init p = Ret []).
  { intros p Hp. assert (p = 0 \/ p = 1 \/ p = 2) as [->|[->| ->]] by lia;
      vm_compute; reflexivity. }
  assert (Hc : 0 <= 1 < 3) by lia.
  assert (Ht : 0 <= 0 <= 3) by lia.
  assert (Hd : 0 <= 5) by lia.
  assert (Hb : Z.min 5 (3 - 0) <= 500) by (simpl; lia).
  assert (Hf : (Z.to_nat (Z.min 5 (3 - 0)) < 4)%nat) by (simpl; lia).
  split; [auto 7|].
  exact (minimax_game_over disc_count 4 Board_init 5 0 1 3 0 Hstuck Hc Ht Hd Hb Hf).
Defined.

(** ** Rendering *)

Lemma COLOR_MAPPING_valid pal cell :
  -1 <= cell <= 2 -> exists color, COLOR_MAPPING pal !! cell = Some color /\
    color ∈ [BACK_EMPTY pal; BACK_BLACK pal; BACK_WHITE pal; BACK_RED pal].
Proof.
  intros H. assert (cell = -1 \/ cell = 0 \/ cell = 1 \/ cell = 2)
    as [->|[->|[->| ->]]] by lia;
    (eexists; split; [vm_compute; reflexivity|]);
    rewrite !elem_of_cons; auto.
Qed.

Lemma COLOR_MAPPING_invalid pal cell :
  ~ -1 <= cell <= 2 -> COLOR_MAPPING pal !! cell = None.
Proof.
  intros H. unfold COLOR_MAPPING. cbn [list_to_map foldr uncurry fst snd].
  rewrite !lookup_insert_ne by lia. apply lookup_empty.
Qed.

Lemma str_cells_outcome pal cells :
  forall output,
    match str_cells pal cells output with
    | Found _ => Forall (fun cell => -1 <= cell <= 2) cells
    | KeyError key => ~ -1 <= key <= 2 /\ key ∈ cells
    end.
Proof.
  induction cells as [|cell cells IH]; intros output; cbn [str_cells]; [constructor|].
  unfold print_disc. destruct (decide (-1 <= cell <= 2)) as [Hin|Hout].
  - destruct (COLOR_MAPPING_valid pal cell Hin) as (color & -> & _).
    cbn [lookup_bind]. specialize (IH (output ++ ((str_or color EmptyString ++ "   "
                                         ++ BACK_GREEN pal) ++ "|"))%string).
    destruct (str_cells pal cells _); [now constructor|].
    destruct IH as [Hkey Hmem]. split; [assumption | now right].
  - rewrite (COLOR_MAPPING_invalid pal cell Hout). cbn [lookup_bind].
    split; [assumption | now left].
Qed.

Lemma str_rows_outcome pal b grid :
  forall row_num output,
    match str_rows pal b row_num grid output with
    | Found _ => Forall (Forall (fun cell => -1 <= cell <= 2)) grid
    | KeyError key => ~ -1 <= key <= 2 /\ exists row, row ∈ grid /\ key ∈ row
    end.
Proof.
  induction grid as [|row grid IH]; intros row_num output; cbn [str_rows]; [constructor|].
  cbv zeta.
  match goal with
  | |- context [str_cells pal row ?o] =>
      pose proof (str_cells_outcome pal row o) as Hrow;
      destruct (str_cells pal row o) as [out|key]
  end; cbn [lookup_bind].
  - match goal with
    | |- context [str_rows pal b ?n grid ?o] =>
        specialize (IH n o); destruct (str_rows pal b n grid o)
    end.
    + now constructor.
    + destruct IH as (Hkey & r & Hr & Hmem). split; [assumption|].
      exists r. split; [now right | assumption].
  - destruct Hrow as [Hkey Hmem]. split; [assumption|].
    exists row. split; [now left | assumption].
Qed.

(** X15: [__str__] returns a string exactly when every value of the grid is
    one of -1, 0, 1, 2, the keys of [COLOR_MAPPING]; otherwise it raises
    [KeyError] with a value of the grid that is none of them. *)
Theorem Board_str_key_error (pal : palette) (b : Board) :
  match __str__ pal b with
  | Found _ => Forall (Forall (fun cell => -1 <= cell <= 2)) (board b)
  | KeyError key =>
      ~ -1 <= key <= 2 /\ exists row, row ∈ board b /\ key ∈ row
  end.
Proof.
  unfold __str__. cbv zeta.
  match goal with
  | |- context [str_rows pal b 0 (board b) ?o] =>
      pose proof (str_rows_outcome pal b (board b) 0 o) as H;
      destruct (str_rows pal b 0 (board b) o)
  end; exact H.
Qed.

(** *** Counting line feeds *)

Lemma count_newlines_app s t :
  count_newlines (s ++ t) = (count_newlines s + count_newlines t)%nat.
Proof. induction s as [|c s IH]; simpl; [reflexivity|]. rewrite IH. lia. Qed.

Lemma count_newlines_concat sep (l : list string) :
  count_newlines sep = 0%nat ->
  Forall (fun s => count_newlines s = 0%nat) l ->
  count_newlines (String.concat sep l) = 0%nat.
Proof.
  intros Hsep. induction 1 as [|s l Hs Hl IH]; [reflexivity|].
  cbn [String.concat]. destruct l as [|t l]; [assumption|].
  rewrite !count_newlines_app, Hs, Hsep. exact IH.
Qed.

Lemma count_newlines_uint d : count_newlines (NilEmpty.string_of_uint d) = 0%nat.
Proof. induction d; simpl; [reflexivity | assumption..]. Qed.

Lemma count_newlines_str_int n : count_newlines (str_int n) = 0%nat.
Proof.
  unfold str_int, NilZero.string_of_int, NilZero.string_of_uint.
  destruct (Z.to_int n) as [d|d]; destruct d; simpl;
    try reflexivity; apply count_newlines_uint.
Qed.

Lemma count_newlines_newline : count_newlines newline = 1%nat.
Proof. reflexivity. Qed.

Section Lines.

Variable pal : palette.
Hypothesis pal_free :
  Forall (fun s => count_newlines s = 0%nat)
    [BACK_EMPTY pal; BACK_GREEN pal; BACK_BLACK pal; BACK_WHITE pal; BACK_RED pal;
     RESET_COLOR pal].

Lemma green_free : count_newlines (BACK_GREEN pal) = 0%nat.
Proof. apply (proj1 (Forall_forall _ _) pal_free). rewrite !elem_of_cons. auto. Qed.

Lemma reset_free : count_newlines (RESET_COLOR pal) = 0%nat.
Proof. apply (proj1 (Forall_forall _ _) pal_free). rewrite !elem_of_cons. auto 10. Qed.

Lemma dashes_free n : Forall (fun s => count_newlines s = 0%nat) (replicate n "-  "%string).
Proof. induction n; simpl; constructor; auto. Qed.

Lemma top_bot_line_one b : count_newlines (top_bot_line pal b) = 1%nat.
Proof.
  unfold top_bot_line.
  set (mid := all_but_last (replicate (Z.to_nat (columns b)) "-  "%string)).
  assert (Hmid : Forall (fun s => count_newlines s = 0%nat) mid).
  { unfold mid, all_but_last. apply Forall_take, dashes_free. }
  rewrite !count_newlines_app, green_free. cbn [count_newlines Ascii.eqb].
  clearbody mid. cbn [app String.concat].
  assert (Hlast : forall l, Forall (fun s => count_newlines s = 0%nat) l ->
            count_newlines
              (String.concat " " (l ++ [("- +" ++ RESET_COLOR pal ++ newline)%string])) =
            1%nat).
  { induction 1 as [|s l Hs Hl IH].
    - cbn [app String.concat]. rewrite !count_newlines_app, reset_free. reflexivity.
    - cbn [app String.concat]. destruct (l ++ _) eqn:E; [now destruct l|].
      rewrite !count_newlines_app, Hs, IH. reflexivity. }
  destruct (mid ++ _) eqn:E; [now destruct mid|]. rewrite <- E.
  rewrite !count_newlines_app, (Hlast mid Hmid). reflexivity.
Qed.

Lemma print_disc_free cell disc :
  print_disc pal cell = Found disc -> count_newlines disc = 0%nat.
Proof.
  unfold print_disc. destruct (COLOR_MAPPING pal !! cell) as [color|] eqn:E; [|discriminate].
  intros [= <-].
  assert (Hcolor : count_newlines color = 0%nat).
  { destruct (decide (-1 <= cell <= 2)) as [Hin|Hout].
    - destruct (COLOR_MAPPING_valid pal cell Hin) as (color' & E' & Hmem).
      assert (color' = color) as -> by congruence.
      apply (proj1 (Forall_forall _ _) pal_free).
      rewrite !elem_of_cons in *. tauto.
    - rewrite (COLOR_MAPPING_invalid pal cell Hout) in E. discriminate. }
  rewrite !count_newlines_app, green_free.
  destruct color; simpl in *; lia.
Qed.

Lemma str_cells_lines cells :
  forall output s,
    str_cells pal cells output = Found s -> count_newlines s = count_newlines output.
Proof.
  induction cells as [|cell cells IH]; intros output s; cbn [str_cells].
  - now intros [= <-].
  - destruct (print_disc pal cell) as [disc|] eqn:E; [|discriminate]. cbn [lookup_bind].
    intros Hs. rewrite (IH _ _ Hs), !count_newlines_app, (print_disc_free _ _ E).
    simpl. lia.
Qed.

(** Every row but the one numbered [rows - 1] is followed by a separator. *)
Lemma str_rows_lines b grid :
  forall row_num output s,
    Z.of_nat (length grid) + row_num = rows b -> grid <> [] ->
    str_rows pal b row_num grid output = Found s ->
    count_newlines s = (count_newlines output + 2 * length grid - 1)%nat.
Proof.
  induction grid as [|row grid IH]; intros row_num output s Hlen Hne; [contradiction|].
  cbn [str_rows]. cbv zeta.
  destruct (str_cells pal row _) as [out|] eqn:E; [|discriminate]. cbn [lookup_bind].
  apply str_cells_lines in E.
  rewrite !count_newlines_app, green_free, count_newlines_str_int in E.
  change (count_newlines " ") with 0%nat in E.
  change (count_newlines "|") with 0%nat in E.
  assert (Hsep : count_newlines
                   (String.concat " "
                      ([" "%string] ++ replicate (Z.to_nat (columns b)) "-  "%string)) =
                 0%nat).
  { apply count_newlines_concat; [reflexivity|].
    constructor; [reflexivity | apply dashes_free]. }
  destruct grid as [|row' grid].
  - assert ((row_num =? rows b - 1) = true) as -> by (cbn [length] in Hlen; lia).
    cbn [negb str_rows]. intros [= <-].
    rewrite !count_newlines_app, reset_free, count_newlines_newline.
    cbn [length]. lia.
  - assert ((row_num =? rows b - 1) = false) as -> by (cbn [length] in Hlen; lia).
    cbn [negb]. intros Hs. apply IH in Hs; [|cbn [length] in *; lia | discriminate].
    rewrite Hs, !count_newlines_app, Hsep, reset_free, green_free, count_newlines_newline.
    change (count_newlines "  ") with 0%nat.
    cbn [length] in *. lia.
Qed.

End Lines.

(** X16: when the colour constants contain no line feed and the grid has
    [rows] rows, at least one, the text returned by [__str__] has
    [2 * rows + 2] lines: the column header, the top border, one line per row,
    a separator after every row but the last, and the bottom border. *)
Theorem Board_str_line_count (pal : palette) (b : Board) (s : string) :
  Forall (fun c => count_newlines c = 0%nat)
    [BACK_EMPTY pal; BACK_GREEN pal; BACK_BLACK pal; BACK_WHITE pal; BACK_RED pal;
     RESET_COLOR pal] ->
  Z.of_nat (length (board b)) = rows b -> 1 <= rows b ->
  __str__ pal b = Found s ->
  count_newlines s = (2 * length (board b) + 2)%nat.
Proof.
  intros Hpal Hlen Hrows. unfold __str__. cbv zeta.
  destruct (str_rows pal b 0 (board b) _) as [out|] eqn:E; [|discriminate].
  cbn [lookup_bind]. intros [= <-].
  apply (str_rows_lines pal Hpal) in E; [|lia | intros Hnil; rewrite Hnil in Hlen; simpl in Hlen; lia].
  rewrite count_newlines_app, E, (top_bot_line_one pal Hpal).
  rewrite !count_newlines_app, (top_bot_line_one pal Hpal), count_newlines_newline.
  rewrite count_newlines_concat.
  - change (count_newlines "    ") with 0%nat.
    change (count_newlines EmptyString) with 0%nat. lia.
  - reflexivity.
  - apply Forall_forall. intros x (n & -> & _)%list_elem_of_fmap.
    apply count_newlines_str_int.
Qed.

Lemma Board_str_line_count_witness :
  exists s,
    (Forall (fun c => count_newlines c = 0%nat)
       [BACK_EMPTY plain_palette; BACK_GREEN plain_palette; BACK_BLACK plain_palette;
        BACK_WHITE plain_palette; BACK_RED plain_palette; RESET_COLOR plain_palette] /\
     Z.of_nat (length (board start_board)) = rows start_board /\
     1 <= rows start_board /\
     __str__ plain_palette start_board = Found s) /\
    count_newlines s = (2 * length (board start_board) + 2)%nat.
Proof.
  eexists.
  assert (Hpal : Forall (fun c => count_newlines c = 0%nat)
            [BACK_EMPTY plain_palette; BACK_GREEN plain_palette; BACK_BLACK plain_palette;
             BACK_WHITE plain_palette; BACK_RED plain_palette; RESET_COLOR plain_palette])
    by (repeat constructor).
  assert (Hlen : Z.of_nat (length (board start_board)) = rows start_board) by reflexivity.
  assert (Hrows : 1 <= rows start_board) by (simpl; lia).
  assert (Hstr : __str__ plain_palette start_board =
                 Found (match __str__ plain_palette start_board with
                        | Found s => s
                        | KeyError _ => EmptyString
                        end)) by (vm_compute; reflexivity).
  split; [split; [exact Hpal | split; [exact Hlen | split; [exact Hrows | exact Hstr]]]|].
  exact (Board_str_line_count plain_palette start_board _ Hpal Hlen Hrows Hstr).
Defined.

(** ** The aggregation policy *)

Section Aggregation.

Variables (nrows ncols : Z).

#[local] Abbreviation in_shape b :=
  (wf_board b /\ rows b = nrows /\ columns b = ncols).

(** Once the running value is a number, the loop can only raise it at a node
    of the maximizing player, and only lower it at any other node. *)
Lemma expand_monotone recurse maximizing_player current_player moves :
  (forall b, in_shape b -> exists v b', recurse b = Ret (VNum v, b') /\ in_shape b') ->
  forall a b,
    in_shape b ->
    (forall cell, cell ∈ moves -> in_bounds b cell.1 cell.2) ->
    exists r b',
      expand recurse maximizing_player current_player moves (VNum a) b =
      Ret (VNum r, b') /\
      if current_player =? maximizing_player then a <= r else r <= a.
Proof.
  intros Hrec. induction moves as [|[move_row move_col] moves IH];
    intros a b Hb Hmoves; cbn [expand].
  - exists a, b. split; [reflexivity|]. destruct (_ =? _); lia.
  - pose proof Hb as (Hwf & Hr & Hc).
    assert (Htarget : in_bounds b move_row move_col)
      by (apply (Hmoves (move_row, move_col)); left).
    destruct (place_cells b move_row move_col current_player Hwf Htarget)
      as (flips & b1 & _ & -> & Hwf1 & Hr1 & Hc1 & _). cbn [bind].
    destruct (Hrec b1) as (v & b2 & -> & Hwf2 & Hr2 & Hc2);
      [split; [assumption | split; congruence]|].
    cbn [bind fst snd].
    assert (Htarget2 : in_bounds b2 move_row move_col)
      by (unfold in_bounds; rewrite Hr2, Hc2, <- Hr, <- Hc; exact Htarget).
    destruct (set_cell_lookup b2 move_row move_col EMPTY Hwf2 Htarget2) as (rw & _ & Hset).
    set (b3 := with_board b2 _) in Hset.
    destruct (set_cell_frame b2 move_row move_col EMPTY b3 Hwf2 Htarget2 Hset)
      as (Hwf3 & Hr3 & Hc3 & _).
    rewrite Hset. cbn [bind aggregate].
    destruct (IH (if current_player =? maximizing_player then Z.max a v else Z.min a v) b3)
      as (r & b' & -> & Hle).
    + split; [assumption | split; congruence].
    + intros cell Hcell. unfold in_bounds.
      rewrite Hr3, Hc3, Hr2, Hc2, <- Hr, <- Hc. apply Hmoves. now right.
    + exists r, b'. split; [reflexivity|]. destruct (_ =? _); lia.
Qed.

End Aggregation.

(** X17: at a node where the current player has a legal move, the value of
    [minimax] is compared with the value of the first move tried (the search
    one ply deeper on the board [place] returns for it): it is at least that
    value when the current player is the maximizing player, and at most that
    value otherwise. *)
Theorem minimax_first_move_bound (heuristic : heuristic_t) (fuel : nat) (b : Board)
    (depth maximizing_player current_player num_players turns_passed : Z)
    (move : Z * Z) (moves : list (Z * Z)) :
  wf_board b -> num_players <> 0 -> 0 < depth -> turns_passed <> num_players ->
  (Z.to_nat depth <= fuel)%nat ->
  valid_moves b current_player = Ret (move :: moves) ->
  exists b1 v1 b1' v b',
    place b move.1 move.2 current_player = Ret b1 /\
    minimax heuristic fuel b1 (depth - 1) maximizing_player
      ((current_player + 1) mod num_players) num_players 0 = Ret (VNum v1, b1') /\
    minimax heuristic (S fuel) b depth maximizing_player current_player num_players
      turns_passed = Ret (VNum v, b') /\
    if current_player =? maximizing_player then v1 <= v else v <= v1.
Proof.
  intros Hwf Hplayers Hdepth Hpass Hfuel Hmoves. destruct move as [move_row move_col].
  assert (Hin : forall cell, cell ∈ (move_row, move_col) :: moves ->
                             in_bounds b cell.1 cell.2)
    by now apply (valid_moves_in_bounds b current_player).
  assert (Htarget : in_bounds b move_row move_col) by (apply (Hin (move_row, move_col)); left).
  destruct (place_cells b move_row move_col current_player Hwf Htarget)
    as (flips & b1 & _ & Hplace & Hwf1 & Hr1 & Hc1 & _).
  assert (Hrec : forall b0,
            wf_board b0 /\ rows b0 = rows b /\ columns b0 = columns b ->
            exists v b',
              minimax heuristic fuel b0 (depth - 1) maximizing_player
                ((current_player + 1) mod num_players) num_players 0 =
              Ret (VNum v, b') /\
              (wf_board b' /\ rows b' = rows b /\ columns b' = columns b)).
  { intros b0 Hb0. apply minimax_returns; [assumption | assumption | lia | lia]. }
  destruct (Hrec b1) as (v1 & b2 & Hrun1 & Hwf2 & Hr2 & Hc2); [auto|].
  assert (Htarget2 : in_bounds b2 move_row move_col)
    by (unfold in_bounds; rewrite Hr2, Hc2; exact Htarget).
  destruct (set_cell_lookup b2 move_row move_col EMPTY Hwf2 Htarget2) as (rw & _ & Hset).
  set (b3 := with_board b2 _) in Hset.
  destruct (set_cell_frame b2 move_row move_col EMPTY b3 Hwf2 Htarget2 Hset)
    as (Hwf3 & Hr3 & Hc3 & _).
  destruct (expand_monotone (rows b) (columns b) _ maximizing_player current_player
              moves Hrec v1 b3) as (v & b' & Hexp & Hle).
  { split; [assumption | split; congruence]. }
  { intros cell Hcell. unfold in_bounds. rewrite Hr3, Hc3, Hr2, Hc2.
    apply Hin. now right. }
  exists b1, v1, b2, v, b'. split; [exact Hplace|]. split; [exact Hrun1|].
  split; [|exact Hle].
  cbn [minimax].
  assert ((depth =? 0) || (turns_passed =? num_players) = false) as -> by lia.
  rewrite Hmoves. cbn [bind]. unfold mod_.
  assert ((num_players =? 0) = false) as -> by lia. cbn [bind expand].
  cbn [fst snd] in Hplace. rewrite Hplace. cbn [bind]. rewrite Hrun1.
  cbn [bind fst snd]. rewrite Hset. cbn [bind]. exact Hexp.
Qed.

Lemma minimax_first_move_bound_witness :
  (wf_board start_board /\ 3 <> 0 /\ 0 < 2 /\ 0 <> 3 /\ (Z.to_nat 2 <= 2)%nat /\
   valid_moves start_board 0 =
   Ret ((2, 4) :: [(4, 2); (4, 6); (6, 2); (6, 3); (6, 4); (6, 5); (6, 6)])) /\
  exists b1 v1 b1' v b',
    place start_board (2, 4).1 (2, 4).2 0 = Ret b1 /\
    minimax disc_count 2 b1 (2 - 1) 0 ((0 + 1) mod 3) 3 0 = Ret (VNum v1, b1') /\
    minimax disc_count 3 start_board 2 0 0 3 0 = Ret (VNum v, b') /\
    if 0 =? 0 then v1 <= v else v <= v1.
Proof.
  assert (Hwf : wf_board start_board) by (split; [reflexivity | repeat constructor]).
  assert (Hn : 3 <> 0) by lia.
  assert (Hd : 0 < 2) by lia.
  assert (Hp : 0 <> 3) by lia.
  assert (Hf : (Z.to_nat 2 <= 2)%nat) by (simpl; lia).
  assert (Hm : valid_moves start_board 0 =
               Ret ((2, 4) :: [(4, 2); (4, 6); (6, 2); (6, 3); (6, 4); (6, 5); (6, 6)]))
    by (vm_compute; reflexivity).
  split; [auto 10|].
  exact (minimax_first_move_bound disc_count 2 start_board 2 0 0 3 0 (2, 4) _
           Hwf Hn Hd Hp Hf Hm).
Defined.
